(** * Transcriber: a shallow embedding of [src/transcriber.py]

    The batch pipeline ([perform_preliminar_replacements],
    [update_words_for_piss_variation], [transform_words_with_s_suffix],
    [transcribe]) and the interactive review loop
    ([process_sentence_interactively] with its helpers) are translated
    function by function.  Python strings are sequences of code points;
    exceptions are values of an error monad; the console is a script of
    events that the loop consumes and a list of lines that it prints. *)

From stdpp Require Import base option list gmap strings.
From Stdlib Require Import NArith ZArith Lia.

Local Open Scope Z_scope.
Local Open Scope N_scope.

(** ** Code points and strings *)

(** A Python [str] is a sequence of Unicode code points. *)
Abbreviation char := N (only parsing).
Abbreviation str := (list N) (only parsing).

(** ASCII literals of the source, as code points. *)
Fixpoint asc (s : string) : str :=
  match s with
  | EmptyString => []
  | String a s' => Ascii.N_of_ascii a :: asc s'
  end.

Arguments asc : simpl never.

(** ** Exceptions *)

Inductive exn := IndexError | KeyError | AttributeError.

Inductive result (A : Type) : Type :=
  | Ok (a : A)
  | Raise (e : exn).
Arguments Ok {A} a.
Arguments Raise {A} e.

Global Instance result_ret : MRet result := fun _ a => Ok a.
Global Instance result_bind : MBind result := fun _ _ f m =>
  match m with
  | Ok a => f a
  | Raise e => Raise e
  end.

(** [[f(x) for x in l]], evaluated left to right, stopping at the first
    exception. *)
Fixpoint for_each {A B} (f : A → result B) (l : list A) : result (list B) :=
  match l with
  | [] => Ok []
  | x :: l' => y ← f x; ys ← for_each f l'; Ok (y :: ys)
  end.

(** [l[i]] with Python's negative indices. *)
Definition py_index {A} (l : list A) (i : Z) : result A :=
  let n := Z.of_nat (length l) in
  let j := (if i <? 0 then i + n else i)%Z in
  if ((0 <=? j) && (j <? n))%Z
  then match l !! Z.to_nat j with Some x => Ok x | None => Raise IndexError end
  else Raise IndexError.

(** [l[i] = x] with Python's negative indices. *)
Definition py_setitem {A} (l : list A) (i : Z) (x : A) : result (list A) :=
  let n := Z.of_nat (length l) in
  let j := (if i <? 0 then i + n else i)%Z in
  if ((0 <=? j) && (j <? n))%Z
  then Ok (<[Z.to_nat j := x]> l)
  else Raise IndexError.

Definition len {A} (l : list A) : Z := Z.of_nat (length l).

(** ** The character database

    What the code asks of Python's Unicode tables, per code point:
    [str.isalnum] and [str.isspace] (behind [\w], [\s], [\b] and
    [str.strip]), the three case classes and the three full case mappings
    (behind [isupper], [istitle], [upper], [lower], [capitalize]), and the
    comparison [re] makes between a pattern character and a text character
    under [re.IGNORECASE].  Case mappings are per code point; the one
    context rule of [str.lower] (Greek final sigma) is not part of them. *)
Class UnicodeData := {
  uc_isalnum : char → bool;
  uc_isspace : char → bool;
  uc_isupper : char → bool;
  uc_islower : char → bool;
  uc_istitle : char → bool;
  uc_toupper : char → str;
  uc_tolower : char → str;
  uc_totitle : char → str;
  uc_ieq : char → char → bool
}.

(** ** The dictionary

    Modelled from the spec: the [Dictionary] class (module [dictionary]) is
    not among the sources.  The spec gives its interface: entries keyed by
    lowercase word, each with a [whole] form and a [PI] mapping from
    variation name to a phonetic string or null; lookup by key returning
    the entry or nothing; iteration over the keys.  A variation can be
    absent from [PI] ([None]), present with a null value ([Some None]) or
    present with a string. *)
Record Entry := {
  whole : str;
  PI : gmap str (option str)
}.

Abbreviation Dictionary := (gmap str Entry).

(** [pi_dictionary.get_entry(word)]: the entry, or [None]. *)
Definition get_entry (d : Dictionary) (word : str) : option Entry := d !! word.

(** [entry["PI"].get(variation)] *)
Definition pi_get (e : Entry) (variation : str) : option str :=
  default None (PI e !! variation).

(** [self.preliminar_replacements], in the order the literal lists it
    (the order [keys()] iterates in).  U+032C combining caron below,
    U+0308 combining diaeresis, U+0323 combining dot below, U+2039 and
    U+203A single angle quotation marks. *)
Definition preliminar_replacements : list (str * str) :=
  [ (asc "the", asc "the" ++ [0x32c]);
    (asc "a", asc "a" ++ [0x32c]);
    (asc "an", asc "a" ++ [0x32c] ++ asc "n");
    (asc "of", [0x2039] ++ asc "o" ++ [0x32c] ++ asc "v" ++ [0x203a]);
    (asc "to", asc "to" ++ [0x32c]);
    (asc "you", asc "yo" ++ [0x308] ++ asc "u");
    (asc "this", asc "this" ++ [0x323]);
    (asc "and", asc "and");
    (asc "for", asc "for");
    (asc "from", asc "fro" ++ [0x32c] ++ asc "m") ].

(** [table[key]] on a dict literal: [KeyError] when the key is missing. *)
Fixpoint dict_getitem (table : list (str * str)) (key : str) : result str :=
  match table with
  | [] => Raise KeyError
  | (k, v) :: table' => if bool_decide (k = key) then Ok v else dict_getitem table' key
  end.

(** The last character of [l], or [prev] when [l] is empty: the character
    before the position that follows [l]. *)
Definition last_or (prev : option char) (l : str) : option char :=
  match last l with Some c => Some c | None => prev end.

Section Transcriber.
Context {U : UnicodeData}.

(** *** String methods *)

Definition upper (s : str) : str := flat_map uc_toupper s.
Definition lower (s : str) : str := flat_map uc_tolower s.

(** [str.capitalize]: first character title-cased, the rest lower-cased. *)
Definition capitalize (s : str) : str :=
  match s with
  | [] => []
  | c :: s' => uc_totitle c ++ lower s'
  end.

Fixpoint isupper_scan (cased : bool) (s : str) : bool :=
  match s with
  | [] => cased
  | c :: s' =>
      if uc_islower c || uc_istitle c then false
      else isupper_scan (cased || uc_isupper c) s'
  end.

(** [str.isupper]: no lowercase or titlecase character and at least one
    uppercase one. *)
Definition isupper (s : str) : bool :=
  match s with
  | [c] => uc_isupper c
  | _ => isupper_scan false s
  end.

Fixpoint istitle_scan (previous_is_cased cased : bool) (s : str) : bool :=
  match s with
  | [] => cased
  | c :: s' =>
      if uc_isupper c || uc_istitle c then
        if previous_is_cased then false else istitle_scan true true s'
      else if uc_islower c then
        if previous_is_cased then istitle_scan true true s' else false
      else istitle_scan false cased s'
  end.

(** [str.istitle]: uppercase only after uncased, lowercase only after
    cased, at least one cased character. *)
Definition istitle (s : str) : bool :=
  match s with
  | [c] => uc_istitle c || uc_isupper c
  | _ => istitle_scan false false s
  end.

Fixpoint lstrip (s : str) : str :=
  match s with
  | [] => []
  | c :: s' => if uc_isspace c then lstrip s' else s
  end.

Definition strip (s : str) : str := rev (lstrip (rev (lstrip s))).

(** [\w] of [re] on a [str] pattern. *)
Definition is_word (c : char) : bool := uc_isalnum c || (c =? 95).

(** *** [re.findall(r'\w+|[^\w\s]+|\s+', text)] *)

Inductive alternative := Word | Punct | Space.

Definition alt_matches (a : alternative) (c : char) : bool :=
  match a with
  | Word => is_word c
  | Punct => negb (is_word c) && negb (uc_isspace c)
  | Space => uc_isspace c
  end.

(** The first alternative that matches at [c]; every character matches
    one of the three. *)
Definition first_alt (c : char) : alternative :=
  if is_word c then Word else if uc_isspace c then Space else Punct.

(** [scan a s]: the rest of the token being matched by alternative [a]
    (greedy), and the tokens that follow it. *)
Fixpoint scan (a : alternative) (s : str) : str * list str :=
  match s with
  | [] => ([], [])
  | c :: s' =>
      if alt_matches a c then
        let '(t, ts) := scan a s' in (c :: t, ts)
      else
        let '(t, ts) := scan (first_alt c) s' in ([], (c :: t) :: ts)
  end.

Definition findall_tokens (s : str) : list str :=
  match s with
  | [] => []
  | c :: s' => let '(t, ts) := scan (first_alt c) s' in (c :: t) :: ts
  end.

(** *** [re.sub] with a pattern [\b<literal>\b] *)

Definition is_word_at (c : option char) : bool :=
  match c with Some c => is_word c | None => false end.

(** [\b] between the character before and the character after. *)
Definition boundary (before after : option char) : bool :=
  xorb (is_word_at before) (is_word_at after).

Definition char_match (ignorecase : bool) (p c : char) : bool :=
  if ignorecase then uc_ieq p c else (c =? p).

(** The literal part of the pattern against a prefix of the text: the
    matched text and what follows it. *)
Fixpoint match_literal (ignorecase : bool) (pat s : str) : option (str * str) :=
  match pat, s with
  | [], _ => Some ([], s)
  | p :: pat', c :: s' =>
      if char_match ignorecase p c then
        '(m, rest) ← match_literal ignorecase pat' s'; Some (c :: m, rest)
      else None
  | _ :: _, [] => None
  end.

(** A match of [\b<pat>\b] at the current position, [prev] being the
    character before it. *)
Definition word_match (ignorecase : bool) (pat : str)
    (prev : option char) (s : str) : option str :=
  '(m, rest) ← match_literal ignorecase pat s;
  if boundary prev (head s) &&
     boundary (match last m with Some c => Some c | None => prev end) (head rest)
  then Some m else None.

Definition limit_reached (count : option nat) : bool :=
  match count with Some O => true | _ => false end.

Definition limit_pred (count : option nat) : option nat :=
  match count with Some n => Some (pred n) | None => None end.

(** What [re.sub] inserts for a callback result: [None] counts as the
    empty string. *)
Definition joined (r : option str) : str := default [] r.

(** The scan of [re.sub]: [skip] characters still belong to the match just
    replaced; [count] is the number of replacements left ([None]: no
    limit); the callback runs at each match, in text order. *)
Fixpoint sub_scan (ignorecase : bool) (pat : str)
    (repl : str → result (option str))
    (skip : nat) (count : option nat) (prev : option char) (s : str)
    : result str :=
  match s with
  | [] =>
      if negb (limit_reached count) && bool_decide (pat = []) &&
         boundary prev None
      then r ← repl []; Ok (joined r)
      else Ok []
  | c :: s' =>
      match skip with
      | S k => sub_scan ignorecase pat repl k count (Some c) s'
      | O =>
          if limit_reached count then Ok s
          else
            match word_match ignorecase pat prev s with
            | Some [] =>
                r ← repl [];
                rest ← sub_scan ignorecase pat repl 0 (limit_pred count) (Some c) s';
                Ok (joined r ++ c :: rest)
            | Some m =>
                r ← repl m;
                rest ← sub_scan ignorecase pat repl (pred (length m))
                          (limit_pred count) (Some c) s';
                Ok (joined r ++ rest)
            | None =>
                rest ← sub_scan ignorecase pat repl 0 count (Some c) s';
                Ok (c :: rest)
            end
      end
  end.

Definition re_sub (ignorecase : bool) (pat : str)
    (repl : str → result (option str)) (count : option nat) (s : str)
    : result str :=
  sub_scan ignorecase pat repl 0 count None s.

(** *** [update_words_for_piss_variation] *)

(** The comprehension [{word: pi_dictionary[word]["PI"].get(variation)
    for word in pi_dictionary if pi_dictionary[word]["PI"].get(variation)}]:
    the entries whose value for the variation is a non-empty string. *)
Definition replacement_dict (d : Dictionary) (variation : str) : gmap str str :=
  omap (λ e, match pi_get e variation with
             | Some (c :: r) => Some (c :: r)
             | _ => None
             end) d.

Definition replace_word (replacement_dict : gmap str str) (word : str)
    : result str :=
  let lower_word := lower word in
  match replacement_dict !! lower_word with
  | Some replacement =>
      if isupper word then Ok (upper replacement)
      else
        c ← py_index word 0;
        if isupper [c] then
          r ← py_index replacement 0;
          Ok (upper [r] ++ drop 1 replacement)
        else Ok replacement
  | None => Ok word
  end.

Definition update_words_for_piss_variation (input_text : str)
    (pi_dictionary : Dictionary) (variation : str) : result str :=
  let replacement_dict := replacement_dict pi_dictionary variation in
  let tokens := findall_tokens input_text in
  updated_tokens ← for_each (λ token,
      if bool_decide (strip token ≠ []) then replace_word replacement_dict token
      else Ok token) tokens;
  Ok (concat updated_tokens).

(** *** [transform_words_with_s_suffix] *)

Definition transform_word (pi_dictionary : Dictionary) (variation : str)
    (word : str) : result str :=
  c ← py_index word (-1);
  single_s ←
    (if c =? 115 then
       if (len word <? 2)%Z then Ok true
       else c2 ← py_index word (-2); Ok (negb (c2 =? 115))
     else Ok false);
  if single_s : bool then
    let base_word := take (length word - 1) word in
    let lower_base_word := lower base_word in
    match pi_dictionary !! lower_base_word with
    | Some e =>
        match PI e !! variation with
        | Some (Some replacement) =>
            b ← py_index base_word 0;
            Ok ((if isupper [b] then capitalize replacement else replacement)
                  ++ asc "s")
        | _ => Ok word
        end
    | None => Ok word
    end
  else Ok word.

Definition transform_words_with_s_suffix (input_text : str)
    (pi_dictionary : Dictionary) (variation : str) : result str :=
  let tokens := findall_tokens input_text in
  updated_tokens ← for_each (λ token,
      if bool_decide (strip token ≠ []) then
        transform_word pi_dictionary variation token
      else Ok token) tokens;
  Ok (concat updated_tokens).

(** *** [perform_preliminar_replacements] *)

Definition replacement_callback (word : str) : result (option str) :=
  replacement ← dict_getitem preliminar_replacements (lower word);
  if istitle word then Ok (Some (capitalize replacement))
  else if isupper word then Ok (Some (upper replacement))
  else Ok (Some replacement).

(** One [re.sub] per key, each on the text the previous one produced. *)
Definition perform_preliminar_replacements (input_text : str) : result str :=
  foldl (λ text '(word, _),
           text ← text; re_sub true word replacement_callback None text)
        (Ok input_text) preliminar_replacements.

(** *** [transcribe] *)

Definition transcribe (pi_dictionary : Dictionary) (input_text : str)
    (variation : str) : result str :=
  processed_text ← perform_preliminar_replacements input_text;
  processed_text ← update_words_for_piss_variation
                     processed_text pi_dictionary variation;
  transform_words_with_s_suffix processed_text pi_dictionary variation.

End Transcriber.

(** ** A concrete character database

    Python's tables restricted to the code points the examples use: ASCII,
    the non-ASCII characters of the source's replacement table (U+0308,
    U+0323, U+032C, U+2039, U+203A: uncased, neither alphanumeric nor
    whitespace), NEL and NBSP among the whitespace, and the four letters
    that [re.IGNORECASE] identifies with ASCII letters: U+0130, U+0131,
    U+017F, U+212A.  Every other code point is treated as an uncased
    symbol. *)
Module Tables.

Definition between (lo hi c : N) : bool := (lo <=? c) && (c <=? hi).

Definition isalnum (c : N) : bool :=
  between 48 57 c || between 65 90 c || between 97 122 c ||
  (c =? 0x130) || (c =? 0x131) || (c =? 0x17f) || (c =? 0x212a).

Definition isspace (c : N) : bool :=
  between 9 13 c || between 28 32 c || (c =? 0x85) || (c =? 0xa0).

Definition isupper (c : N) : bool :=
  between 65 90 c || (c =? 0x130) || (c =? 0x212a).

Definition islower (c : N) : bool :=
  between 97 122 c || (c =? 0x131) || (c =? 0x17f).

Definition istitle (c : N) : bool := false.

Definition toupper (c : N) : list N :=
  if between 97 122 c then [c - 32]
  else if c =? 0x131 then [73]
  else if c =? 0x17f then [83]
  else [c].

Definition tolower (c : N) : list N :=
  if between 65 90 c then [c + 32]
  else if c =? 0x130 then [105; 0x307]
  else if c =? 0x212a then [107]
  else [c].

(** The simple (one to one) mappings [re] uses. *)
Definition simple_lower (c : N) : N :=
  if between 65 90 c then c + 32
  else if c =? 0x130 then 105
  else if c =? 0x212a then 107
  else c.

Definition simple_upper (c : N) : N :=
  if between 97 122 c then c - 32
  else if c =? 0x131 then 73
  else if c =? 0x17f then 83
  else c.

Definition iscased (c : N) : bool :=
  negb (c =? simple_lower c) || negb (c =? simple_upper c).

(** The compiler's table of characters that are equal when case is ignored
    although their lowercase forms differ: i and dotless i, s and long s. *)
Definition ignorecase_fixes (lo : N) : list N :=
  if lo =? 0x69 then [0x131]
  else if lo =? 0x131 then [0x69]
  else if lo =? 0x73 then [0x17f]
  else if lo =? 0x17f then [0x73]
  else [].

(** A literal [p] of an IGNORECASE pattern against the text character [c]:
    an uncased literal is compared as it is; a cased one is lowered, and
    the lowered text character must be it or one of its fixes. *)
Definition ieq (p c : N) : bool :=
  if iscased p then
    let lo := simple_lower p in
    let lc := simple_lower c in
    (lc =? lo) || existsb (N.eqb lc) (ignorecase_fixes lo)
  else c =? p.

End Tables.

Global Instance python_tables : UnicodeData := {|
  uc_isalnum := Tables.isalnum;
  uc_isspace := Tables.isspace;
  uc_isupper := Tables.isupper;
  uc_islower := Tables.islower;
  uc_istitle := Tables.istitle;
  uc_toupper := Tables.toupper;
  uc_tolower := Tables.tolower;
  uc_totitle := Tables.toupper;
  uc_ieq := Tables.ieq
|}.

(** ** The interactive review loop *)

(** What the console and the dictionary store supply while the loop runs:
    a line typed by the user, or the dictionary as reloaded after an edit
    ([edit_entry] followed by [refresh_dictionary]). *)
Inductive event :=
  | Typed (line : str)
  | Reloaded (d : Dictionary).

(** The variables of [process_sentence_interactively]: the shared list
    [sentences], the two cursors, the locals [sentence] and [words],
    [self.pi_dictionary], and the lines printed so far. *)
Record Session := {
  sentences : list str;
  current_sentence_index : Z;
  sentence : str;
  words : list str;
  selected_word_index : Z;
  pi_dictionary : Dictionary;
  printed : list str
}.

Inductive outcome :=
  | Returned (s : Session)
  | Raised (e : exn) (s : Session)
  | AwaitingInput (s : Session)
  | OutOfFuel (s : Session).

Inductive step_result :=
  | Continue (s : Session) (script : list event)
  | Stop (o : outcome).

Definition say (line : str) (s : Session) : Session :=
  {| sentences := sentences s;
     current_sentence_index := current_sentence_index s;
     sentence := sentence s; words := words s;
     selected_word_index := selected_word_index s;
     pi_dictionary := pi_dictionary s;
     printed := printed s ++ [line] |}.

Definition with_sentences (l : list str) (s : Session) : Session :=
  {| sentences := l;
     current_sentence_index := current_sentence_index s;
     sentence := sentence s; words := words s;
     selected_word_index := selected_word_index s;
     pi_dictionary := pi_dictionary s;
     printed := printed s |}.

Definition with_sentence_index (i : Z) (s : Session) : Session :=
  {| sentences := sentences s;
     current_sentence_index := i;
     sentence := sentence s; words := words s;
     selected_word_index := selected_word_index s;
     pi_dictionary := pi_dictionary s;
     printed := printed s |}.

Definition with_word_index (i : Z) (s : Session) : Session :=
  {| sentences := sentences s;
     current_sentence_index := current_sentence_index s;
     sentence := sentence s; words := words s;
     selected_word_index := i;
     pi_dictionary := pi_dictionary s;
     printed := printed s |}.

Definition with_dictionary (d : Dictionary) (s : Session) : Session :=
  {| sentences := sentences s;
     current_sentence_index := current_sentence_index s;
     sentence := sentence s; words := words s;
     selected_word_index := selected_word_index s;
     pi_dictionary := d;
     printed := printed s |}.

(** The session after more lines were printed. *)
Definition printing (lines : list str) (s : Session) : Session :=
  {| sentences := sentences s;
     current_sentence_index := current_sentence_index s;
     sentence := sentence s; words := words s;
     selected_word_index := selected_word_index s;
     pi_dictionary := pi_dictionary s;
     printed := printed s ++ lines |}.

(** How an f-string shows a value that may be [None]. *)
Definition fmt (v : option str) : str := default (asc "None") v.

Definition try_ {A} (r : result A) (s : Session) (k : A → step_result)
    : step_result :=
  match r with
  | Ok a => k a
  | Raise e => Stop (Raised e s)
  end.

(** What holds of the result of a pass through the loop body: [P] of
    the session and script it goes on with, or [Q] of the outcome it ends
    with. *)
Definition step_post (P : Session → list event → Prop) (Q : outcome → Prop)
    (r : step_result) : Prop :=
  match r with
  | Continue s script => P s script
  | Stop o => Q o
  end.

Section Review.
Context {U : UnicodeData}.

(** [re.findall(r'\b\w+\b', sentence)]: the maximal runs of word
    characters.  [word_runs s] is the run that starts [s] and the runs
    after it. *)
Fixpoint word_runs (s : str) : str * list str :=
  match s with
  | [] => ([], [])
  | c :: s' =>
      let '(w, ws) := word_runs s' in
      if is_word c then (c :: w, ws)
      else ([], match w with [] => ws | _ => w :: ws end)
  end.

Definition split_sentence_into_words (sentence : str) : list str :=
  let '(w, ws) := word_runs sentence in
  match w with [] => ws | _ => w :: ws end.

(** [sentence = ...; words = self.split_sentence_into_words(sentence)] *)
Definition with_sentence (sen : str) (s : Session) : Session :=
  {| sentences := sentences s;
     current_sentence_index := current_sentence_index s;
     sentence := sen; words := split_sentence_into_words sen;
     selected_word_index := selected_word_index s;
     pi_dictionary := pi_dictionary s;
     printed := printed s |}.

Definition highlight_selected_word (sentence selected_word : str)
    : result str :=
  re_sub false selected_word
    (λ m, Ok (Some (asc ">" ++ m ++ asc "<"))) (Some 1%nat) sentence.

(** The callback of [replace_word_in_sentence]; [replacement] is whatever
    the caller passed, a string or [None]. *)
Definition replace (replacement : option str) (matched_word : str)
    : result (option str) :=
  if isupper matched_word then
    match replacement with
    | Some r => Ok (Some (upper r))
    | None => Raise AttributeError
    end
  else if istitle matched_word then
    match replacement with
    | Some r => Ok (Some (capitalize r))
    | None => Raise AttributeError
    end
  else Ok replacement.

Definition replace_word_in_sentence (sentence word : str)
    (replacement : option str) : result str :=
  re_sub true word (replace replacement) None sentence.

(** The list is updated in place, one sentence after the other: the
    result is the list as the loop left it, and the exception that
    stopped it, if any. *)
Fixpoint replace_word_in_all_sentences (sentences : list str)
    (original_word : str) (new_word : option str)
    : list str * option exn :=
  match sentences with
  | [] => ([], None)
  | x :: rest =>
      match replace_word_in_sentence x original_word new_word with
      | Ok x' =>
          let '(rest', e) :=
            replace_word_in_all_sentences rest original_word new_word in
          (x' :: rest', e)
      | Raise e => (x :: rest, Some e)
      end
  end.

(** [selected_word_index += 1], then the move to the next sentence when
    the end of the current one is reached (the lines that the accept and
    next branches share). *)
Definition next_word_or_sentence (s : Session) : result Session :=
  let s := with_word_index (selected_word_index s + 1) s in
  if (len (words s) <=? selected_word_index s)%Z then
    let s := with_sentence_index (current_sentence_index s + 1) s in
    if (current_sentence_index s <? len (sentences s))%Z then
      sen ← py_index (sentences s) (current_sentence_index s);
      Ok (with_word_index 0 (with_sentence sen s))
    else Ok s
  else Ok s.

(** The lines that print the dictionary entry of the selected word. *)
Definition show_entry (variation : str) (pi_entry : option Entry)
    (s : Session) (k : Session → step_result) : step_result :=
  match pi_entry with
  | Some e =>
      let s := say (asc "PI Entry: " ++ whole e) s in
      match PI e !! variation with
      | Some v => k (say (variation ++ asc " word: " ++ fmt v) s)
      | None => Stop (Raised KeyError s)
      end
  | None => k (say [] (say (asc "No PI entry found for this word.") s))
  end.

(** The entry, when the action typed is [key] and there is an entry:
    the conditions [user_action == key and pi_entry]. *)
Definition action_with_entry (key : string) (user_action : str)
    (pi_entry : option Entry) : option Entry :=
  if bool_decide (user_action = asc key) then pi_entry else None.

(** The global replacement of the accept and customize branches, up to the
    refresh of [sentence] and [words]. *)
Definition replace_and_refresh (selected_word : str) (new_word : option str)
    (message : str) (s : Session) (k : Session → step_result) : step_result :=
  let '(l, e) := replace_word_in_all_sentences (sentences s) selected_word new_word in
  let s := with_sentences l s in
  match e with
  | Some e => Stop (Raised e s)
  | None =>
      let s := say message s in
      try_ (py_index (sentences s) (current_sentence_index s)) s (λ sen,
        k (with_sentence sen s))
  end.

(** The answer of the user and the branch it selects: the [if]/[elif]
    chain of the loop body. *)
Definition dispatch (variation selected_word : str) (pi_entry : option Entry)
    (s : Session) (script : list event) : step_result :=
  match script with
  | Typed line :: script =>
      let user_action := lower line in
      match action_with_entry "a" user_action pi_entry with
      | Some entry =>
          (* Accept action: replace the word and move to the next *)
          match PI entry !! variation with
          | None => Stop (Raised KeyError s)
          | Some pi_word =>
              replace_and_refresh selected_word pi_word
                (asc "All occurrences of '" ++ selected_word ++
                 asc "' replaced with '" ++ fmt pi_word ++ asc "'") s (λ s,
              try_ (next_word_or_sentence s) s (λ s, Continue s script))
          end
      | None =>
      if bool_decide (user_action = asc "n") || bool_decide (user_action = [])
      then
        (* Next word action *)
        try_ (next_word_or_sentence s) s (λ s, Continue s script)
      else if bool_decide (user_action = asc "p") then
        (* Previous word action *)
        if (0 <? selected_word_index s)%Z then
          Continue (with_word_index (selected_word_index s - 1) s) script
        else if (0 <? current_sentence_index s)%Z then
          let s := with_sentence_index (current_sentence_index s - 1) s in
          try_ (py_index (sentences s) (current_sentence_index s)) s (λ sen,
          let s := with_sentence sen s in
          Continue (with_word_index (len (words s) - 1) s) script)
        else Continue s script
      else if bool_decide (user_action = asc "e") then
        match script with
        | Reloaded d :: script => Continue (with_dictionary d s) script
        | _ => Stop (AwaitingInput s)
        end
      else
      match action_with_entry "c" user_action pi_entry with
      | Some entry =>
          match PI entry !! variation with
          | None => Stop (Raised KeyError s)
          | Some pi_word =>
              match script with
              | Typed answer :: script =>
                  let custom_word :=
                    match strip answer with
                    | [] => pi_word
                    | c :: r => Some (c :: r)
                    end in
                  replace_and_refresh selected_word custom_word
                    (asc "Word '" ++ selected_word ++
                     asc "' replaced with customized version '" ++
                     fmt custom_word ++ asc "'") s (λ s,
                  (* Move to the next word *)
                  Continue (with_word_index (selected_word_index s + 1) s) script)
              | _ => Stop (AwaitingInput s)
              end
          end
      | None =>
      if bool_decide (user_action = asc "s") then
        (* Skip to the next sentence *)
        let s := with_sentence_index (current_sentence_index s + 1) s in
        if (current_sentence_index s <? len (sentences s))%Z then
          try_ (py_index (sentences s) (current_sentence_index s)) s (λ sen,
          Continue (with_word_index 0 (with_sentence sen s)) script)
        else Continue s script
      else if bool_decide (user_action = asc "q") then
        (* Quit action *)
        Stop (Returned (say (asc "Exiting interactive transcription.") s))
      else
        Continue
          (say (asc "Invalid input. Please choose 'a', 'n', '', 'p', 'c', 's', or 'q'.") s)
          script
      end
      end
  | _ => Stop (AwaitingInput s)
  end.

(** One pass through the body of the inner loop. *)
Definition review_step (variation : str) (s : Session) (script : list event)
    : step_result :=
  try_ (py_index (words s) (selected_word_index s)) s (λ selected_word,
  try_ (highlight_selected_word (sentence s) selected_word) s (λ display_sentence,
  let s := say display_sentence s in
  let pi_entry := get_entry (pi_dictionary s) (lower selected_word) in
  show_entry variation pi_entry s (λ s,
  dispatch variation selected_word pi_entry s script))).

Inductive loop_head := OuterLoop | InnerLoop.

(** The two nested [while] loops; one unit of fuel per test of a loop
    condition. *)
Fixpoint run (fuel : nat) (variation : str) (head : loop_head)
    (s : Session) (script : list event) : outcome :=
  match fuel with
  | O => OutOfFuel s
  | S fuel =>
      match head with
      | OuterLoop =>
          if (current_sentence_index s <? len (sentences s))%Z then
            match py_index (sentences s) (current_sentence_index s) with
            | Ok sen =>
                run fuel variation InnerLoop
                  (with_word_index 0 (with_sentence sen s)) script
            | Raise e => Raised e s
            end
          else Returned s
      | InnerLoop =>
          if (selected_word_index s <? len (words s))%Z then
            match review_step variation s script with
            | Continue s' script' => run fuel variation InnerLoop s' script'
            | Stop o => o
            end
          else
            (* Update the sentence in the list after processing *)
            match py_setitem (sentences s) (current_sentence_index s) (sentence s) with
            | Ok l => run fuel variation OuterLoop (with_sentences l s) script
            | Raise e => Raised e s
            end
      end
  end.

Definition start (pi_dictionary : Dictionary) (sentences : list str)
    (current_sentence_index : Z) : Session :=
  {| sentences := sentences;
     current_sentence_index := current_sentence_index;
     sentence := []; words := [];
     selected_word_index := 0;
     pi_dictionary := pi_dictionary;
     printed := [] |}.

Definition process_sentence_interactively (fuel : nat)
    (pi_dictionary : Dictionary) (sentences : list str)
    (current_sentence_index : Z) (variation : str) (script : list event)
    : outcome :=
  run fuel variation OuterLoop
      (start pi_dictionary sentences current_sentence_index) script.

(** The session an outcome carries. *)
Definition session_of (o : outcome) : Session :=
  match o with
  | Returned s | Raised _ s | AwaitingInput s | OutOfFuel s => s
  end.

(** The locals agree with the list: [words] are the words of [sentence],
    and [sentence] is the element of [sentences] at the sentence index
    whenever that index is below [len(sentences)]. *)
Definition coherent (s : Session) : Prop :=
  words s = split_sentence_into_words (sentence s) ∧
  ((current_sentence_index s < len (sentences s))%Z →
   py_index (sentences s) (current_sentence_index s) = Ok (sentence s)).

(** An event that is not the answer [a] or [c]. *)
Definition browsing (ev : event) : Prop :=
  match ev with
  | Typed line => lower line ≠ asc "a" ∧ lower line ≠ asc "c"
  | Reloaded _ => True
  end.

End Review.

(** ** Texts that the pipeline leaves alone *)

Section Stable.
Context {U : UnicodeData}.

(** Whether [\b<pat>\b] matches somewhere in [s], [prev] being the
    character before [s]. *)
Fixpoint matches_somewhere (ignorecase : bool) (pat : str)
    (prev : option char) (s : str) : bool :=
  match s with
  | [] => bool_decide (pat = []) && boundary prev None
  | c :: s' =>
      bool_decide (is_Some (word_match ignorecase pat prev s)) ||
      matches_somewhere ignorecase pat (Some c) s'
  end.

(** The stem of a token with exactly one trailing [s]. *)
Definition stem_of (word : str) : option str :=
  match reverse word with
  | 115 :: 115 :: _ => None
  | 115 :: rest => Some (reverse rest)
  | _ => None
  end.

(** Whether the dictionary has a non-null value for [word] and the
    variation. *)
Definition has_form (d : Dictionary) (variation word : str) : bool :=
  match d !! word with
  | Some e =>
      match PI e !! variation with
      | Some (Some _) => true
      | _ => false
      end
  | None => false
  end.

(** A text is stable when no preliminary key matches in it as a whole
    word, case ignored, and each of its tokens that is not whitespace has
    no entry in the variation lookup and, if it has exactly one trailing
    [s], a stem without value for the variation. *)
Definition stable (d : Dictionary) (variation text : str) : bool :=
  forallb (λ kv : str * str, negb (matches_somewhere true kv.1 None text))
          preliminar_replacements &&
  forallb (λ token,
             bool_decide (strip token = []) ||
             (bool_decide (replacement_dict d variation !! lower token = None) &&
              match stem_of token with
              | Some stem => negb (has_form d variation (lower stem))
              | None => true
              end))
          (findall_tokens text).

End Stable.

(** ** [split_into_sentences] *)

Section Sentences.
Context {U : UnicodeData}.

(** [[A-Z]] and [[a-z]] of a pattern compiled without IGNORECASE. *)
Definition ascii_upper (c : char) : bool := (65 <=? c) && (c <=? 90).
Definition ascii_lower (c : char) : bool := (97 <=? c) && (c <=? 122).

(** The pattern
    [(?<!\w\.\w.)(?<![A-Z][a-z]\.)(?<=\.|\?|\!|\n)\s]
    at the character [c]; [before] holds the characters before [c], the
    nearest first.  The dot of the first lookbehind is any character but
    a newline. *)
Definition sentence_break (before : str) (c : char) : bool :=
  negb (match before with
        | d :: c3 :: c2 :: c1 :: _ =>
            is_word c1 && (c2 =? 46) && is_word c3 && negb (d =? 10)
        | _ => false
        end) &&
  negb (match before with
        | d :: l :: u :: _ => ascii_upper u && ascii_lower l && (d =? 46)
        | _ => false
        end) &&
  match before with
  | d :: _ => (d =? 46) || (d =? 63) || (d =? 33) || (d =? 10)
  | [] => false
  end &&
  uc_isspace c.

(** [re.split]: the rest of the piece being read and the pieces after
    it; the character at which the pattern matches is dropped. *)
Fixpoint split_scan (before : str) (s : str) : str * list str :=
  match s with
  | [] => ([], [])
  | c :: s' =>
      let '(piece, pieces) := split_scan (c :: before) s' in
      if sentence_break before c then ([], piece :: pieces)
      else (c :: piece, pieces)
  end.

Definition re_split_sentences (text : str) : list str :=
  let '(piece, pieces) := split_scan [] text in piece :: pieces.

(** [[sentence.strip() for sentence in sentences if sentence.strip()]] *)
Definition split_into_sentences (text : str) : list str :=
  omap (λ sentence,
          match strip sentence with
          | [] => None
          | c :: r => Some (c :: r)
          end)
       (re_split_sentences text).

End Sentences.

(** The session at the head of the inner loop, the cursor on word
    [word_index] of sentence [sentence_index]. *)
Definition prompt_at (d : Dictionary) (sentences : list str)
    (sentence_index : Z) (sen : str) (word_index : Z) : Session :=
  with_word_index word_index
    (with_sentence sen (start d sentences sentence_index)).

(** ** Examples *)

Definition L1 : str := asc "L1".

(** A dictionary with one entry, [word] with the L1 form [form]. *)
Definition one_entry (word form : string) : Dictionary :=
  {[ asc word := {| whole := asc word; PI := {[ L1 := Some (asc form) ]} |} ]}.

(** [cat] -> [dog] and [dog] -> [cow]. *)
Definition cat_dog_cow : Dictionary :=
  <[ asc "dog" := {| whole := asc "dog"; PI := {[ L1 := Some (asc "cow") ]} |} ]>
    (one_entry "cat" "dog").

(** An entry whose [PI] mapping is [pi]. *)
Definition entry_with (word : string) (pi : gmap str (option str)) : Dictionary :=
  {[ asc word := {| whole := asc word; PI := pi |} ]}.

(** Closed goals are settled by running the model. *)
Ltac evaluate :=
  repeat match goal with
         | |- _ ∧ _ => split
         | |- ∃ _, _ => eexists
         end;
  vm_compute; reflexivity.

(** * Properties *)

(** ** Indexing and the error monad *)

Lemma result_bind_ok {A B} (a : A) (f : A → result B) : (Ok a ≫= f) = f a.
Proof. reflexivity. Qed.

Lemma py_index_first {A} (x : A) (l : list A) : py_index (x :: l) 0 = Ok x.
Proof.
  unfold py_index. cbn [length].
  replace (0 <? 0)%Z with false by reflexivity.
  assert (H : ((0 <=? 0) && (0 <? Z.of_nat (S (length l))))%Z = true).
  { apply andb_true_intro; split; [apply Z.leb_le | apply Z.ltb_lt]; lia. }
  rewrite H. reflexivity.
Qed.

Lemma py_index_last {A} (l : list A) (x : A) : py_index (l ++ [x]) (-1) = Ok x.
Proof.
  unfold py_index. rewrite length_app. cbn [length].
  replace (-1 <? 0)%Z with true by reflexivity.
  assert (H : ((0 <=? -1 + Z.of_nat (length l + 1)) &&
               (-1 + Z.of_nat (length l + 1) <? Z.of_nat (length l + 1)))%Z = true).
  { apply andb_true_intro; split; [apply Z.leb_le | apply Z.ltb_lt]; lia. }
  rewrite H.
  replace (Z.to_nat (-1 + Z.of_nat (length l + 1))) with (length l) by lia.
  rewrite list_lookup_middle by reflexivity. reflexivity.
Qed.

Lemma py_index_second_last {A} (l : list A) (y x : A) :
  py_index (l ++ [y; x]) (-2) = Ok y.
Proof.
  unfold py_index. rewrite length_app. cbn [length].
  replace (-2 <? 0)%Z with true by reflexivity.
  assert (H : ((0 <=? -2 + Z.of_nat (length l + 2)) &&
               (-2 + Z.of_nat (length l + 2) <? Z.of_nat (length l + 2)))%Z = true).
  { apply andb_true_intro; split; [apply Z.leb_le | apply Z.ltb_lt]; lia. }
  rewrite H.
  replace (Z.to_nat (-2 + Z.of_nat (length l + 2))) with (length l) by lia.
  rewrite list_lookup_middle by reflexivity. reflexivity.
Qed.

Lemma py_index_in_range {A} (l : list A) (i : Z) :
  (0 <= i < len l)%Z → ∃ x, py_index l i = Ok x ∧ l !! Z.to_nat i = Some x.
Proof.
  unfold len, py_index. intros Hi.
  replace (i <? 0)%Z with false by (symmetry; apply Z.ltb_ge; lia).
  assert (H : ((0 <=? i) && (i <? Z.of_nat (length l)))%Z = true).
  { apply andb_true_intro; split; [apply Z.leb_le | apply Z.ltb_lt]; lia. }
  rewrite H.
  destruct (lookup_lt_is_Some_2 l (Z.to_nat i)) as [x Hx]; [lia|].
  rewrite Hx. eauto.
Qed.

Lemma py_setitem_past_end {A} (l : list A) (x : A) :
  py_setitem l (len l) x = Raise IndexError.
Proof.
  unfold py_setitem, len.
  replace (Z.of_nat (length l) <? 0)%Z with false by (symmetry; apply Z.ltb_ge; lia).
  rewrite Z.ltb_irrefl, andb_false_r. reflexivity.
Qed.

Lemma for_each_Forall2 {A B} (f : A → result B) (R : A → B → Prop) (l : list A) :
  Forall (λ x, ∃ y, f x = Ok y ∧ R x y) l →
  ∃ ys, for_each f l = Ok ys ∧ Forall2 R l ys.
Proof.
  induction 1 as [|x l [y [Hy HR]] _ [ys [Hys HRs]]]; cbn.
  - exists []. split; [reflexivity | constructor].
  - exists (y :: ys). rewrite Hy. cbn. rewrite Hys. cbn.
    split; [reflexivity | by constructor].
Qed.

Lemma for_each_id {A} (f : A → result A) (l : list A) :
  Forall (λ x, f x = Ok x) l → for_each f l = Ok l.
Proof.
  induction 1 as [|x l Hx _ IH]; cbn; [reflexivity|].
  rewrite Hx. cbn. rewrite IH. reflexivity.
Qed.

Section Facts.
Context {U : UnicodeData}.

(** ** The tokenizer *)

Lemma scan_concat (s : str) (a : alternative) :
  (scan a s).1 ++ concat (scan a s).2 = s.
Proof.
  revert a. induction s as [|c s IH]; intros a; cbn; [reflexivity|].
  destruct (alt_matches a c).
  - specialize (IH a). destruct (scan a s) as [t ts]. cbn in *. by rewrite IH.
  - specialize (IH (first_alt c)). destruct (scan (first_alt c) s) as [t ts].
    cbn in *. by rewrite IH.
Qed.

(** Concatenating the tokens gives the text back. *)
Lemma findall_tokens_concat (s : str) : concat (findall_tokens s) = s.
Proof.
  destruct s as [|c s]; cbn; [reflexivity|].
  pose proof (scan_concat s (first_alt c)) as H.
  destruct (scan (first_alt c) s) as [t ts]. cbn in *. by rewrite H.
Qed.

Lemma scan_nonempty (s : str) (a : alternative) :
  Forall (λ t, t ≠ []) (scan a s).2.
Proof.
  revert a. induction s as [|c s IH]; intros a; cbn; [constructor|].
  destruct (alt_matches a c).
  - specialize (IH a). by destruct (scan a s).
  - specialize (IH (first_alt c)). destruct (scan (first_alt c) s). cbn in *.
    by constructor.
Qed.

(** No token is empty. *)
Lemma findall_tokens_nonempty (s : str) :
  Forall (λ t, t ≠ []) (findall_tokens s).
Proof.
  destruct s as [|c s]; cbn; [constructor|].
  pose proof (scan_nonempty s (first_alt c)) as H.
  destruct (scan (first_alt c) s). cbn in *. by constructor.
Qed.

Lemma lstrip_all_space (s : str) :
  Forall (λ c, uc_isspace c = true) s → lstrip s = [].
Proof. induction 1 as [|c s Hc _ IH]; cbn; [reflexivity|]. by rewrite Hc. Qed.

(** A run of whitespace strips to the empty string. *)
Lemma strip_all_space (s : str) :
  Forall (λ c, uc_isspace c = true) s → strip s = [].
Proof. intros H. unfold strip. rewrite (lstrip_all_space s H). reflexivity. Qed.

(** ** [update_words_for_piss_variation] *)

Lemma replacement_dict_lookup (d : Dictionary) (variation key r : str) :
  replacement_dict d variation !! key = Some r ↔
  ∃ e, d !! key = Some e ∧ PI e !! variation = Some (Some r) ∧ r ≠ [].
Proof.
  unfold replacement_dict. rewrite lookup_omap. unfold pi_get. split.
  - destruct (d !! key) as [e|]; cbn; [|done].
    destruct (PI e !! variation) as [[[|c r']|]|] eqn:He; cbn; try done.
    intros [= <-]. by exists e.
  - intros (e & -> & He & Hr). cbn. rewrite He. cbn.
    destruct r; [done | reflexivity].
Qed.

Lemma replacement_dict_nonempty (d : Dictionary) (variation key r : str) :
  replacement_dict d variation !! key = Some r → r ≠ [].
Proof. intros H. apply replacement_dict_lookup in H. by destruct H as (_ & _ & _ & H). Qed.

(** [replace_word] returns on every non-empty token, and returns the
    token itself when its lowercased form is not in the lookup. *)
Lemma replace_word_returns (d : Dictionary) (variation word : str) :
  word ≠ [] →
  ∃ out, replace_word (replacement_dict d variation) word = Ok out ∧
         (replacement_dict d variation !! lower word = None → out = word).
Proof.
  intros Hw. unfold replace_word.
  destruct (replacement_dict d variation !! lower word) as [r|] eqn:Hr.
  - apply replacement_dict_nonempty in Hr.
    destruct (isupper word); [eexists; split; [reflexivity | done]|].
    destruct word as [|c w]; [done|]. rewrite py_index_first. cbn.
    destruct (uc_isupper c); [|eexists; split; [reflexivity | done]].
    destruct r as [|r0 r]; [done|]. rewrite py_index_first.
    eexists; split; [reflexivity | done].
  - by exists word.
Qed.

(** [update_words_for_piss_variation] returns on every input. *)
Lemma update_words_total (d : Dictionary) (variation text : str) :
  ∃ out, update_words_for_piss_variation text d variation = Ok out.
Proof.
  unfold update_words_for_piss_variation.
  destruct (for_each_Forall2
    (λ token, if bool_decide (strip token ≠ [])
              then replace_word (replacement_dict d variation) token
              else Ok token)
    (λ _ _, True) (findall_tokens text)) as (ys & -> & _).
  - eapply Forall_impl; [apply findall_tokens_nonempty|].
    intros tok Htok. cbn. case_bool_decide.
    + destruct (replace_word_returns d variation tok Htok) as (out & -> & _). eauto.
    + eauto.
  - cbn. eauto.
Qed.

(** ** [transform_words_with_s_suffix] *)

(** With no empty key in the dictionary, [transform_word] returns on
    every non-empty token. *)
Lemma transform_word_returns (d : Dictionary) (variation word : str) :
  d !! [] = None → word ≠ [] →
  ∃ out, transform_word d variation word = Ok out.
Proof.
  intros Hd Hw. unfold transform_word.
  destruct (exists_last Hw) as (base & c & ->).
  rewrite py_index_last, result_bind_ok.
  assert (Hbase : take (length (base ++ [c]) - 1) (base ++ [c]) = base).
  { rewrite length_app. cbn [length].
    replace (length base + 1 - 1)%nat with (length base) by lia.
    by rewrite take_app_length. }
  rewrite Hbase.
  set (rewritten := match d !! lower base with Some _ => _ | None => _ end).
  assert (Hlook : ∃ out, rewritten = Ok out).
  { subst rewritten. destruct base as [|b base].
    - change (lower []) with (@nil N). rewrite Hd. eauto.
    - destruct (d !! lower (b :: base)) as [e|]; [|eauto].
      destruct (PI e !! variation) as [[r|]|]; [|eauto..].
      rewrite py_index_first, result_bind_ok. eauto. }
  destruct (c =? 115); [|rewrite result_bind_ok; eauto].
  destruct (len (base ++ [c]) <? 2)%Z eqn:Hlen; [by rewrite result_bind_ok|].
  destruct (decide (base = [])) as [->|Hne]; [discriminate Hlen|].
  destruct (exists_last Hne) as (base' & c2 & Hb).
  assert (Hp : py_index (base ++ [c]) (-2) = Ok c2).
  { rewrite Hb, <- app_assoc. apply py_index_second_last. }
  rewrite Hp, !result_bind_ok.
  destruct (negb (c2 =? 115)); [exact Hlook | eauto].
Qed.

(** [transform_words_with_s_suffix] returns on every input when the
    dictionary has no empty key. *)
Lemma transform_words_total (d : Dictionary) (variation text : str) :
  d !! [] = None →
  ∃ out, transform_words_with_s_suffix text d variation = Ok out.
Proof.
  intros Hd. unfold transform_words_with_s_suffix.
  destruct (for_each_Forall2
    (λ token, if bool_decide (strip token ≠ [])
              then transform_word d variation token
              else Ok token)
    (λ _ _, True) (findall_tokens text)) as (ys & -> & _).
  - eapply Forall_impl; [apply findall_tokens_nonempty|].
    intros tok Htok. cbn beta. case_bool_decide.
    + destruct (transform_word_returns d variation tok Hd Htok) as (out & ->). eauto.
    + eauto.
  - rewrite result_bind_ok. eauto.
Qed.

End Facts.

Section SuffixRule.
Context {U : UnicodeData}.

Lemma take_all_but_last {A} (l : list A) (x : A) :
  take (length (l ++ [x]) - 1) (l ++ [x]) = l.
Proof.
  rewrite length_app. cbn [length].
  replace (length l + 1 - 1)%nat with (length l) by lia.
  by rewrite take_app_length.
Qed.

Lemma len_short {A} (l : list A) (x : A) :
  (len (l ++ [x]) <? 2)%Z = bool_decide (l = []).
Proof.
  unfold len. rewrite length_app. cbn [length].
  destruct l as [|y l]; [reflexivity|].
  cbn [length]. rewrite bool_decide_eq_false_2 by done.
  apply Z.ltb_ge. lia.
Qed.

(** A token that ends in a double [s] is returned as it is, whatever the
    dictionary holds. *)
Lemma transform_word_double_s (d : Dictionary) (variation w : str) :
  transform_word d variation (w ++ asc "ss") = Ok (w ++ asc "ss").
Proof.
  unfold transform_word. change (asc "ss") with [115; 115].
  change (w ++ [115; 115]) with (w ++ [115] ++ [115]).
  rewrite app_assoc, py_index_last, result_bind_ok.
  change (115 =? 115) with true. cbv iota.
  rewrite len_short, bool_decide_eq_false_2 by (by destruct w).
  rewrite <- app_assoc. change ([115] ++ [115]) with [115; 115].
  rewrite py_index_second_last, !result_bind_ok. reflexivity.
Qed.

(** A token with one trailing [s] whose stem has a value for the
    variation: the value, capitalized when the stem starts with an
    uppercase character, followed by [s]. *)
Lemma transform_word_single_s (d : Dictionary) (variation stem r : str)
    (b : char) (e : Entry) :
  head stem = Some b → last stem ≠ Some 115 →
  d !! lower stem = Some e → PI e !! variation = Some (Some r) →
  transform_word d variation (stem ++ asc "s") =
    Ok ((if uc_isupper b then capitalize r else r) ++ asc "s").
Proof.
  intros Hb Hlast Hd He. unfold transform_word. change (asc "s") with [115].
  rewrite py_index_last, result_bind_ok.
  change (115 =? 115) with true. cbv iota.
  rewrite len_short, take_all_but_last, Hd, He.
  destruct stem as [|b' stem]; [discriminate Hb|]. injection Hb as ->.
  rewrite bool_decide_eq_false_2 by done.
  destruct (exists_last (l := b :: stem)) as (stem' & c2 & Hs); [done|].
  assert (Hp : py_index ((b :: stem) ++ [115]) (-2) = Ok c2).
  { rewrite Hs, <- app_assoc. apply py_index_second_last. }
  rewrite Hp, !result_bind_ok.
  assert (Hc2 : (c2 =? 115) = false).
  { apply N.eqb_neq. intros ->. apply Hlast. rewrite Hs. apply last_snoc. }
  rewrite Hc2. cbn [negb]. rewrite py_index_first, result_bind_ok.
  reflexivity.
Qed.

(** Only a token with exactly one trailing [s] can come back changed. *)
Lemma transform_word_changed (d : Dictionary) (variation w out : str) :
  transform_word d variation w = Ok out → out ≠ w →
  ∃ stem, w = stem ++ asc "s" ∧ last stem ≠ Some 115.
Proof.
  intros Hout Hne. destruct (decide (w = [])) as [->|Hw]; [discriminate Hout|].
  destruct (exists_last Hw) as (stem & c & ->).
  unfold transform_word in Hout.
  rewrite py_index_last, result_bind_ok in Hout.
  destruct (c =? 115) eqn:Hc.
  2:{ rewrite result_bind_ok in Hout. by injection Hout as <-. }
  apply N.eqb_eq in Hc as ->. exists stem. split; [reflexivity|].
  intros Hlast.
  destruct (decide (stem = [])) as [->|Hs]; [discriminate Hlast|].
  destruct (exists_last Hs) as (stem' & c2 & ->).
  rewrite last_snoc in Hlast. injection Hlast as ->.
  rewrite len_short, bool_decide_eq_false_2 in Hout by done.
  rewrite <- app_assoc in Hout. change ([115] ++ [115]) with [115; 115] in Hout.
  rewrite py_index_second_last, !result_bind_ok in Hout.
  change (negb (115 =? 115)) with false in Hout. cbv iota in Hout.
  injection Hout as <-. apply Hne. by rewrite <- app_assoc.
Qed.

End SuffixRule.

(** ** Tokens and their alternatives *)

Section TokenShape.
Context {U : UnicodeData}.

Lemma first_alt_matches (c : char) : alt_matches (first_alt c) c = true.
Proof.
  unfold first_alt.
  destruct (is_word c) eqn:Hw; [exact Hw|].
  destruct (uc_isspace c) eqn:Hs; [exact Hs|].
  cbn [alt_matches]. by rewrite Hw, Hs.
Qed.

Lemma scan_shape (s : str) (a : alternative) :
  Forall (λ c, alt_matches a c = true) (scan a s).1 ∧
  Forall (λ t, ∃ c t', t = c :: t' ∧
                 Forall (λ x, alt_matches (first_alt c) x = true) t)
         (scan a s).2.
Proof.
  revert a. induction s as [|c s IH]; intros a; cbn; [by split|].
  destruct (alt_matches a c) eqn:Hc.
  - destruct (IH a) as [H1 H2]. destruct (scan a s) as [t ts]. cbn in *.
    split; [by constructor | done].
  - destruct (IH (first_alt c)) as [H1 H2].
    destruct (scan (first_alt c) s) as [t ts]. cbn in *.
    split; [constructor|]. constructor; [|done].
    exists c, t. split; [reflexivity|].
    constructor; [apply first_alt_matches | done].
Qed.

(** Every token is a non-empty run of characters that match the
    alternative chosen at its first character. *)
Lemma findall_tokens_shape (s : str) :
  Forall (λ t, ∃ c t', t = c :: t' ∧
                 Forall (λ x, alt_matches (first_alt c) x = true) t)
         (findall_tokens s).
Proof.
  destruct s as [|c s]; cbn; [constructor|].
  destruct (scan_shape s (first_alt c)) as [H1 H2].
  destruct (scan (first_alt c) s) as [t ts]. cbn in *.
  constructor; [|done]. exists c, t. split; [reflexivity|].
  constructor; [apply first_alt_matches | done].
Qed.

(** C8 (amended).  The output of [update_words_for_piss_variation] is
    the in-order concatenation of one result per token of the input, and
    the tokens concatenate to the input.  A whitespace token is its own
    result.  Any other token, word or punctuation, is its own result
    unless its lowercased form is a key of the variation lookup: the
    guard of the source only sets whitespace aside, so a punctuation
    token goes through the same lookup as a word. *)
Theorem update_words_tokenwise (d : Dictionary) (variation text : str) :
  concat (findall_tokens text) = text ∧
  ∃ outs,
    update_words_for_piss_variation text d variation = Ok (concat outs) ∧
    Forall2 (λ token out,
        (∀ c, head token = Some c → first_alt c = Space → out = token) ∧
        (strip token = [] → out = token) ∧
        (replacement_dict d variation !! lower token = None → out = token))
      (findall_tokens text) outs.
Proof.
  split; [apply findall_tokens_concat|].
  unfold update_words_for_piss_variation.
  destruct (for_each_Forall2
    (λ token, if bool_decide (strip token ≠ [])
              then replace_word (replacement_dict d variation) token
              else Ok token)
    (λ token out,
        (∀ c, head token = Some c → first_alt c = Space → out = token) ∧
        (strip token = [] → out = token) ∧
        (replacement_dict d variation !! lower token = None → out = token))
    (findall_tokens text)) as (outs & Houts & HR).
  - eapply Forall_impl; [apply findall_tokens_shape|].
    intros tok (c & t' & -> & Hrun). cbn beta.
    case_bool_decide as Hstrip.
    + destruct (replace_word_returns d variation (c :: t')) as (out & Hout & Hkeep); [done|].
      exists out. split; [exact Hout|]. split; [|split; [done | exact Hkeep]].
      intros c' [= <-] Hsp. exfalso. apply Hstrip, strip_all_space.
      rewrite Hsp in Hrun. exact Hrun.
    + exists (c :: t'). done.
  - exists outs. rewrite Houts, result_bind_ok. done.
Qed.

End TokenShape.

(** ** The pipeline on the examples of the specification *)

(** C8 (as stated, refuted).  With the entry [&] -> [and], the
    punctuation token [&] of [salt & pepper] does not pass through
    unchanged: the output is [salt and pepper]. *)
Lemma update_words_rewrites_punctuation :
  findall_tokens (asc "salt & pepper") =
    [asc "salt"; asc " "; asc "&"; asc " "; asc "pepper"] ∧
  first_alt 38 = Punct ∧
  update_words_for_piss_variation (asc "salt & pepper") (one_entry "&" "and") L1
    = Ok (asc "salt and pepper") ∧
  findall_tokens (asc "salt and pepper") =
    [asc "salt"; asc " "; asc "and"; asc " "; asc "pepper"].
Proof. repeat split; vm_compute; reflexivity. Qed.

(** C10 (failing input).  The long s (U+017F) equals [s] when case is
    ignored, so [\bthis\b] matches the four characters t, h, i, U+017F;
    their lowercase form is not a key of the table and the callback's
    lookup raises [KeyError], whatever the dictionary and the
    variation. *)
Theorem transcribe_long_s_raises (d : Dictionary) (variation : str) :
  perform_preliminar_replacements (asc "thi" ++ [0x17f]) = Raise KeyError ∧
  transcribe d (asc "thi" ++ [0x17f]) variation = Raise KeyError.
Proof.
  assert (H : perform_preliminar_replacements (asc "thi" ++ [0x17f]) = Raise KeyError)
    by (vm_compute; reflexivity).
  split; [exact H|]. unfold transcribe. rewrite H. reflexivity.
Qed.

Lemma cats_closed_facts :
  perform_preliminar_replacements (asc "cats") = Ok (asc "cats") ∧
  findall_tokens (asc "cats") = [asc "cats"] ∧
  strip (asc "cats") = asc "cats" ∧
  lower (asc "cats") = asc "cats" ∧
  lower (asc "cat") = asc "cat".
Proof. repeat split; vm_compute; reflexivity. Qed.

(** C6.  With [cat] -> [kat] for L1 (and no L1 form for [cats] itself),
    [transcribe('cats', 'L1')] is [kats]; a token ending in a double [s]
    comes back from [transform_word] unchanged whatever the dictionary
    holds, [glass] with an entry for [glas] included; and a token that
    [transform_word] changes has exactly one trailing [s]. *)
Theorem suffix_rule :
  (∀ (d : Dictionary) (e : Entry),
      d !! asc "cat" = Some e →
      PI e !! L1 = Some (Some (asc "kat")) →
      replacement_dict d L1 !! asc "cats" = None →
      transcribe d (asc "cats") L1 = Ok (asc "kats")) ∧
  (∀ (U : UnicodeData) (d : Dictionary) (variation w : str),
      @transform_word U d variation (w ++ asc "ss") = Ok (w ++ asc "ss")) ∧
  transform_words_with_s_suffix (asc "glass") (one_entry "glas" "glaz") L1
    = Ok (asc "glass") ∧
  (∀ (U : UnicodeData) (d : Dictionary) (variation w out : str),
      @transform_word U d variation w = Ok out → out ≠ w →
      ∃ stem, w = stem ++ asc "s" ∧ last stem ≠ Some 115).
Proof.
  split; [|split; [|split]].
  - intros d e Hd He Hcats.
    destruct cats_closed_facts as (Hpre & Htok & Hstrip & Hlow & Hlow').
    unfold transcribe. rewrite Hpre, result_bind_ok.
    unfold update_words_for_piss_variation. rewrite Htok. cbn [for_each].
    rewrite Hstrip, bool_decide_eq_true_2 by done.
    unfold replace_word. rewrite Hlow, Hcats, !result_bind_ok.
    change (concat [asc "cats"]) with (asc "cats").
    unfold transform_words_with_s_suffix. rewrite Htok. cbn [for_each].
    rewrite Hstrip, bool_decide_eq_true_2 by done.
    change (asc "cats") with (asc "cat" ++ asc "s").
    rewrite (transform_word_single_s d L1 (asc "cat") (asc "kat") 99 e);
      [reflexivity | reflexivity | by vm_compute | by rewrite Hlow' | exact He].
  - intros U d variation w. apply transform_word_double_s.
  - vm_compute. reflexivity.
  - intros U d variation w out. apply transform_word_changed.
Qed.

(** The suffix rule on the dictionary that holds the entry [cat] ->
    [kat] and nothing else. *)
Lemma suffix_rule_witness :
  transcribe (one_entry "cat" "kat") (asc "cats") L1 = Ok (asc "kats").
Proof.
  apply (proj1 suffix_rule (one_entry "cat" "kat")
           {| whole := asc "cat"; PI := {[ L1 := Some (asc "kat") ]} |});
    vm_compute; reflexivity.
Defined.

Lemma theater_closed_facts :
  perform_preliminar_replacements (asc "theater") = Ok (asc "theater") ∧
  findall_tokens (asc "theater") = [asc "theater"] ∧
  strip (asc "theater") = asc "theater" ∧
  lower (asc "theater") = asc "theater".
Proof. repeat split; vm_compute; reflexivity. Qed.

(** C7.  With no entry for [theater] in the dictionary,
    [transcribe('theater')] is [theater]: the key [the] is matched
    between word boundaries only.  And
    [perform_preliminar_replacements('The cat')] replaces [The] by the
    capitalized form of its table value, [T], [h], [e], U+032C, and keeps
    [ cat]. *)
Theorem whole_word_boundary (d : Dictionary) (variation : str) :
  d !! asc "theater" = None →
  transcribe d (asc "theater") variation = Ok (asc "theater") ∧
  perform_preliminar_replacements (asc "The cat")
    = Ok (asc "The" ++ [0x32c] ++ asc " cat").
Proof.
  intros Hd. split; [|vm_compute; reflexivity].
  destruct theater_closed_facts as (Hpre & Htok & Hstrip & Hlow).
  unfold transcribe. rewrite Hpre, result_bind_ok.
  unfold update_words_for_piss_variation. rewrite Htok. cbn [for_each].
  rewrite Hstrip, bool_decide_eq_true_2 by done.
  unfold replace_word. rewrite Hlow.
  assert (Hrd : replacement_dict d variation !! asc "theater" = None).
  { unfold replacement_dict. by rewrite lookup_omap, Hd. }
  rewrite Hrd, !result_bind_ok.
  change (concat [asc "theater"]) with (asc "theater").
  unfold transform_words_with_s_suffix. rewrite Htok. cbn [for_each].
  rewrite Hstrip, bool_decide_eq_true_2 by done.
  assert (Ht : transform_word d variation (asc "theater") = Ok (asc "theater")).
  { unfold transform_word.
    change (py_index (asc "theater") (-1)) with (@Ok N 114).
    reflexivity. }
  rewrite Ht. reflexivity.
Qed.

Lemma whole_word_boundary_witness :
  transcribe (one_entry "the" "dhe") (asc "theater") L1 = Ok (asc "theater") ∧
  perform_preliminar_replacements (asc "The cat")
    = Ok (asc "The" ++ [0x32c] ++ asc " cat").
Proof.
  apply (whole_word_boundary (one_entry "the" "dhe") L1).
  vm_compute. reflexivity.
Defined.

(** ** Case adaptation in the three substitution steps *)

Section CaseAdaptation.
Context {U : UnicodeData}.

(** C5 (amended).  In [update_words_for_piss_variation], a word that is
    not fully uppercase and starts with an uppercase character gets the
    lookup's replacement with its first character uppercased and the rest
    unchanged.  In [transform_words_with_s_suffix], a stem that starts
    with an uppercase character (fully uppercase or not) gets
    [replacement.capitalize()], first character title-cased and the rest
    lowercased, followed by [s].  In [replace_word_in_sentence], a match
    that is not fully uppercase gets [replacement.capitalize()] when it is
    title-cased ([str.istitle]) and the replacement as it is otherwise. *)
Theorem case_adaptation :
  (∀ (d : Dictionary) (variation word r : str) (c : char),
      replacement_dict d variation !! lower word = Some r →
      isupper word = false → head word = Some c → uc_isupper c = true →
      ∃ r0 r', r = r0 :: r' ∧
        replace_word (replacement_dict d variation) word
          = Ok (uc_toupper r0 ++ r')) ∧
  (∀ (d : Dictionary) (variation stem r : str) (b : char) (e : Entry),
      head stem = Some b → last stem ≠ Some 115 →
      d !! lower stem = Some e → PI e !! variation = Some (Some r) →
      uc_isupper b = true →
      transform_word d variation (stem ++ asc "s")
        = Ok (capitalize r ++ asc "s")) ∧
  (∀ (matched_word r : str),
      isupper matched_word = false →
      replace (Some r) matched_word
        = Ok (Some (if istitle matched_word then capitalize r else r))) ∧
  (∀ (r0 : char) (r' : str),
      capitalize (r0 :: r') = uc_totitle r0 ++ lower r').
Proof.
  split; [|split; [|split]].
  - intros d variation word r c Hr Hup Hc Hcu.
    pose proof (replacement_dict_nonempty _ _ _ _ Hr) as Hne.
    destruct r as [|r0 r']; [done|]. exists r0, r'. split; [reflexivity|].
    unfold replace_word. rewrite Hr, Hup.
    destruct word as [|c' w]; [discriminate Hc|]. injection Hc as ->.
    rewrite !py_index_first, !result_bind_ok. cbv beta.
    change (isupper [c]) with (uc_isupper c). rewrite Hcu.
    unfold upper. cbn [flat_map drop]. by rewrite app_nil_r.
  - intros d variation stem r b e Hb Hlast Hd He Hbu.
    rewrite (transform_word_single_s d variation stem r b e Hb Hlast Hd He).
    by rewrite Hbu.
  - intros matched_word r Hup. unfold replace. rewrite Hup.
    by destruct (istitle matched_word).
  - reflexivity.
Qed.

End CaseAdaptation.

(** The three steps on one capitalized word each. *)
Lemma case_adaptation_witness :
  (∃ r0 r', asc "makdonald" = r0 :: r' ∧
     replace_word (replacement_dict (one_entry "mcdonald" "makdonald") L1)
       (asc "McDonald") = Ok (uc_toupper r0 ++ r')) ∧
  transform_word (one_entry "cat" "kat") L1 (asc "Cat" ++ asc "s")
    = Ok (capitalize (asc "kat") ++ asc "s") ∧
  replace (Some (asc "kat")) (asc "Cat")
    = Ok (Some (if istitle (asc "Cat") then capitalize (asc "kat") else asc "kat")).
Proof.
  destruct (@case_adaptation python_tables) as (H1 & H2 & H3 & _).
  split; [|split].
  - apply (H1 _ _ _ _ 77); vm_compute; reflexivity.
  - apply (H2 _ _ _ _ 67 {| whole := asc "cat"; PI := {[ L1 := Some (asc "kat") ]} |});
      vm_compute; first [reflexivity | discriminate].
  - apply H3. vm_compute. reflexivity.
Defined.

(** C5 (as stated, refuted).  [McDonald] is not fully uppercase and
    starts with an uppercase character, yet it is not title-cased, and
    [replace_word_in_sentence] inserts the replacement with no character
    uppercased.  The stem [Cat] with the dictionary form [kAt] gives
    [Kats] in [transform_words_with_s_suffix]: [capitalize] lowercases
    the [A], where uppercasing the first character only would give
    [KAts]. *)
Lemma capitalize_is_not_first_character_only :
  isupper (asc "McDonald") = false ∧ uc_isupper 77 = true ∧
  replace_word_in_sentence (asc "McDonald") (asc "mcdonald") (Some (asc "makdonald"))
    = Ok (asc "makdonald") ∧
  upper (asc "m") ++ asc "akdonald" = asc "Makdonald" ∧
  isupper (asc "Cat") = false ∧ uc_isupper 67 = true ∧
  transform_words_with_s_suffix (asc "Cats") (one_entry "cat" "kAt") L1
    = Ok (asc "Kats") ∧
  upper (asc "k") ++ asc "At" ++ asc "s" = asc "KAts".
Proof. repeat split; vm_compute; reflexivity. Qed.

(** ** Transcribing twice *)

Section FixedPoint.
Context {U : UnicodeData}.

(** Where the pattern matches nowhere, [re.sub] returns the text. *)
Lemma sub_scan_no_match (ignorecase : bool) (pat : str)
    (repl : str → result (option str)) (count : option nat)
    (prev : option char) (s : str) :
  matches_somewhere ignorecase pat prev s = false →
  sub_scan ignorecase pat repl 0 count prev s = Ok s.
Proof.
  revert prev. induction s as [|c s IH]; intros prev H; cbn in H |- *.
  - rewrite <- andb_assoc, H, andb_false_r. reflexivity.
  - apply orb_false_elim in H as [Hm Hrest].
    destruct (limit_reached count); [reflexivity|].
    destruct (word_match ignorecase pat prev (c :: s)) as [m|] eqn:Hw.
    + rewrite bool_decide_eq_true_2 in Hm by eauto. discriminate Hm.
    + rewrite (IH _ Hrest). reflexivity.
Qed.

Lemma preliminar_replacements_no_match (table : list (str * str)) (text : str) :
  forallb (λ kv : str * str, negb (matches_somewhere true kv.1 None text)) table = true →
  foldl (λ text '(word, _),
           text ← text; re_sub true word replacement_callback None text)
        (Ok text) table = Ok text.
Proof.
  induction table as [|[k v] table IH]; cbn [forallb foldl]; [reflexivity|].
  intros H. apply andb_prop in H as [Hk Ht].
  rewrite result_bind_ok. unfold re_sub.
  rewrite sub_scan_no_match by (by apply negb_true_iff in Hk).
  by apply IH.
Qed.

Lemma stem_of_snoc (stem : str) (c : char) :
  stem_of (stem ++ [c]) =
    if c =? 115 then
      if bool_decide (last stem = Some 115) then None else Some stem
    else None.
Proof.
  unfold stem_of. rewrite reverse_snoc.
  destruct (c =? 115) eqn:Hc.
  - apply N.eqb_eq in Hc as ->.
    destruct (decide (stem = [])) as [->|Hs]; [reflexivity|].
    destruct (exists_last Hs) as (stem' & c2 & ->).
    rewrite reverse_snoc, last_snoc.
    case_bool_decide as Hc2.
    + by injection Hc2 as ->.
    + rewrite <- reverse_snoc, reverse_involutive.
      assert (c2 ≠ 115) by congruence.
      destruct c2 as [|p]; [reflexivity|].
      do 7 (destruct p as [p|p|]; try reflexivity); try done.
      all: destruct p; try reflexivity; done.
  - apply N.eqb_neq in Hc.
    destruct c as [|p]; [reflexivity|].
    do 7 (destruct p as [p|p|]; try reflexivity); try done.
    all: destruct p; try reflexivity; done.
Qed.

Lemma has_form_false {T : Type} (d : Dictionary) (variation key : str)
    (X : str → T) (Y : T) :
  has_form d variation key = false →
  match d !! key with
  | Some e =>
      match PI e !! variation with
      | Some (Some r) => X r
      | _ => Y
      end
  | None => Y
  end = Y.
Proof.
  unfold has_form. destruct (d !! key) as [e|]; [|done].
  by destruct (PI e !! variation) as [[r|]|].
Qed.

(** A token whose stem, if it has one, has no value for the variation
    comes back from [transform_word] as it is. *)
Lemma transform_word_stable (d : Dictionary) (variation word : str) :
  word ≠ [] →
  match stem_of word with
  | Some stem => has_form d variation (lower stem) = false
  | None => True
  end →
  transform_word d variation word = Ok word.
Proof.
  intros Hw Hstem. destruct (exists_last Hw) as (stem & c & ->).
  rewrite stem_of_snoc in Hstem. unfold transform_word.
  rewrite py_index_last, result_bind_ok.
  destruct (c =? 115) eqn:Hc; [|by rewrite result_bind_ok].
  rewrite len_short, take_all_but_last.
  destruct (decide (stem = [])) as [->|Hs].
  - rewrite bool_decide_eq_true_2, result_bind_ok by done.
    rewrite bool_decide_eq_false_2 in Hstem by done.
    by apply has_form_false.
  - rewrite bool_decide_eq_false_2 by done.
    destruct (exists_last Hs) as (stem' & c2 & Hb).
    assert (Hp : py_index (stem ++ [c]) (-2) = Ok c2).
    { rewrite Hb, <- app_assoc. apply py_index_second_last. }
    rewrite Hp, !result_bind_ok.
    destruct (c2 =? 115) eqn:Hc2; [reflexivity|]. cbn [negb].
    rewrite bool_decide_eq_false_2 in Hstem.
    + by apply has_form_false.
    + rewrite Hb, last_snoc. intros [= ->]. discriminate Hc2.
Qed.

(** A stable text is a fixed point of [transcribe]. *)
Lemma transcribe_stable (d : Dictionary) (variation text : str) :
  stable d variation text = true → transcribe d text variation = Ok text.
Proof.
  unfold stable. intros H. apply andb_prop in H as [Hpre Htok].
  unfold transcribe, perform_preliminar_replacements.
  rewrite preliminar_replacements_no_match, result_bind_ok by exact Hpre.
  rewrite forallb_forall in Htok. apply List.Forall_forall in Htok.
  pose proof (findall_tokens_nonempty text) as Hne.
  unfold update_words_for_piss_variation.
  rewrite for_each_id, !result_bind_ok.
  2:{ eapply Forall_impl; [exact Htok|]. intros tok Ht. cbn beta in *.
      destruct (decide (strip tok = [])) as [Hstrip|Hstrip];
        [by rewrite bool_decide_eq_false_2 by (by intros ?)|].
      rewrite bool_decide_eq_true_2 by done.
      rewrite bool_decide_eq_false_2 in Ht by done. cbn [orb] in Ht.
      apply andb_prop in Ht as [Hl _]. apply bool_decide_eq_true in Hl.
      unfold replace_word. by rewrite Hl. }
  rewrite findall_tokens_concat.
  unfold transform_words_with_s_suffix.
  rewrite for_each_id, !result_bind_ok.
  2:{ pose proof (proj2 (Forall_and _ _) (conj Htok Hne)) as Hboth.
      eapply Forall_impl; [exact Hboth|]. intros tok [Ht Hn]. cbn beta in *.
      destruct (decide (strip tok = [])) as [Hstrip|Hstrip];
        [by rewrite bool_decide_eq_false_2 by (by intros ?)|].
      rewrite bool_decide_eq_true_2 by done.
      rewrite bool_decide_eq_false_2 in Ht by done. cbn [orb] in Ht.
      apply andb_prop in Ht as [_ Hs].
      apply transform_word_stable; [exact Hn|].
      destruct (stem_of tok); [by apply negb_true_iff | done]. }
  by rewrite findall_tokens_concat.
Qed.

(** C4 (amended).  [transcribe] is a function of the text, the variation
    and the dictionary, and transcribing its output again gives the same
    output whenever that output is stable: no preliminary key matches in
    it as a whole word, and no token of it has an entry in the variation
    lookup or a stem with a value for the variation. *)
Theorem transcribe_idempotent_on_stable_output
    (d : Dictionary) (variation text out : str) :
  transcribe d text variation = Ok out →
  stable d variation out = true →
  (out' ← transcribe d text variation; transcribe d out' variation)
    = transcribe d text variation.
Proof.
  intros Hout Hst. rewrite Hout, result_bind_ok. by apply transcribe_stable.
Qed.

End FixedPoint.

Lemma transcribe_idempotent_on_stable_output_witness :
  (out' ← transcribe (one_entry "cat" "kat") (asc "two cats") L1;
   transcribe (one_entry "cat" "kat") out' L1)
    = transcribe (one_entry "cat" "kat") (asc "two cats") L1.
Proof.
  apply (transcribe_idempotent_on_stable_output
           (one_entry "cat" "kat") L1 (asc "two cats")
           (asc "two kats")); vm_compute; reflexivity.
Defined.

(** C4 (as stated, refuted).  With an empty dictionary, [the] is
    transcribed to [the] followed by U+032C, a character that is not a
    word character; [the] is then a whole word again and the second pass
    appends a second U+032C.  With [cat] -> [dog] and [dog] -> [cow], the
    first pass gives [dog] and the second [cow]. *)
Lemma transcribe_not_idempotent :
  transcribe ∅ (asc "the") L1 = Ok (asc "the" ++ [0x32c]) ∧
  transcribe ∅ (asc "the" ++ [0x32c]) L1 = Ok (asc "the" ++ [0x32c; 0x32c]) ∧
  transcribe cat_dog_cow (asc "cat") L1 = Ok (asc "dog") ∧
  transcribe cat_dog_cow (asc "dog") L1 = Ok (asc "cow").
Proof. repeat split; vm_compute; reflexivity. Qed.

(** ** What [re.sub] does at a whole-word occurrence *)

Section Occurrences.
Context {U : UnicodeData}.
Variables (ignorecase : bool) (pat : str) (repl : str → result (option str)).

Lemma last_or_cons (prev : option char) (c : char) (l : str) :
  last_or prev (c :: l) = last_or (Some c) l.
Proof.
  unfold last_or. destruct l as [|d l]; [reflexivity|].
  rewrite last_cons_cons. destruct (last (d :: l)) eqn:E; [reflexivity|].
  by apply last_None in E.
Qed.

(** The characters of a match that was replaced are passed over. *)
Lemma sub_scan_skip (l post : str) (prev : option char) :
  sub_scan ignorecase pat repl (length l) None prev (l ++ post) =
  sub_scan ignorecase pat repl 0 None (last_or prev l) post.
Proof.
  revert prev. induction l as [|c l IH]; intros prev; [reflexivity|].
  cbn [length app sub_scan]. by rewrite IH, last_or_cons.
Qed.

Lemma match_literal_inv (s m rest : str) :
  match_literal ignorecase pat s = Some (m, rest) →
  s = m ++ rest ∧ Forall2 (λ p c, char_match ignorecase p c = true) pat m.
Proof.
  revert s m rest. induction pat as [|p pat' IH]; intros s m rest; cbn.
  - intros [= <- <-]. by split.
  - destruct s as [|c s]; [done|].
    destruct (char_match ignorecase p c) eqn:Hc; [|done].
    destruct (match_literal ignorecase pat' s) as [[m' rest']|] eqn:Hm; [|done].
    cbn. intros [= <- <-]. destruct (IH _ _ _ Hm) as [-> HF].
    split; [reflexivity | by constructor].
Qed.

Lemma match_literal_intro (m rest : str) :
  Forall2 (λ p c, char_match ignorecase p c = true) pat m →
  match_literal ignorecase pat (m ++ rest) = Some (m, rest).
Proof.
  revert m. induction pat as [|p pat' IH]; intros m HF.
  - by apply Forall2_nil_inv_l in HF as ->.
  - apply Forall2_cons_inv_l in HF as (c & m' & Hc & HF & ->).
    cbn. by rewrite Hc, (IH _ HF).
Qed.

Lemma Forall2_matched_words (l m : str) :
  (∀ p c, p ∈ l → char_match ignorecase p c = true → is_word c = true) →
  Forall2 (λ p c, char_match ignorecase p c = true) l m →
  Forall (λ c, is_word c = true) m.
Proof.
  intros Hw HF. induction HF as [|p c l m' Hpc _ IH]; constructor.
  - apply (Hw p c); [left | exact Hpc].
  - apply IH. intros p' c' Hp'. apply Hw. by right.
Qed.

Lemma match_literal_non_word (l : str) (c : char) (s : str) :
  l ≠ [] →
  (∀ p c, p ∈ l → char_match ignorecase p c = true → is_word c = true) →
  is_word c = false → match_literal ignorecase l (c :: s) = None.
Proof.
  intros Hl Hw Hc. destruct l as [|p l]; [done|]. cbn.
  destruct (char_match ignorecase p c) eqn:Hpc; [|reflexivity].
  rewrite (Hw p c) in Hc; [discriminate Hc | by left | exact Hpc].
Qed.

Hypothesis pat_nonempty : pat ≠ [].
Hypothesis pat_matches_words :
  ∀ p c, p ∈ pat → char_match ignorecase p c = true → is_word c = true.

Lemma matched_is_word (m : str) :
  Forall2 (λ p c, char_match ignorecase p c = true) pat m →
  Forall (λ c, is_word c = true) m.
Proof. apply Forall2_matched_words, pat_matches_words. Qed.

Lemma last_is_word (m : str) (c : char) :
  Forall (λ c, is_word c = true) m → last m = Some c → is_word c = true.
Proof.
  intros HF Hl. rewrite Forall_forall in HF. apply HF.
  apply last_Some in Hl as [l' ->]. apply elem_of_app. right. by left.
Qed.

Lemma head_is_word (m : str) (c : char) :
  Forall (λ c, is_word c = true) m → head m = Some c → is_word c = true.
Proof. intros HF Hh. destruct m; [done|]. injection Hh as ->. by inversion HF. Qed.

Variables (m post : str).
Hypothesis occurrence : Forall2 (λ p c, char_match ignorecase p c = true) pat m.
Hypothesis after_occurrence : is_word_at (head post) = false.

Lemma occurrence_nonempty : m ≠ [].
Proof.
  intros ->. apply Forall2_nil_inv_r in occurrence. by apply pat_nonempty.
Qed.

(** The pattern matches at the occurrence. *)
Lemma word_match_at_occurrence (prev : option char) :
  is_word_at prev = false →
  word_match ignorecase pat prev (m ++ post) = Some m.
Proof.
  intros Hprev. unfold word_match.
  rewrite (match_literal_intro _ _ occurrence). cbn.
  pose proof (matched_is_word _ occurrence) as Hm.
  pose proof occurrence_nonempty as Hne.
  destruct m as [|m0 m'] eqn:Em; [done|]. rewrite <- Em in *.
  assert (Hhead : head (m ++ post) = Some m0) by (by rewrite Em).
  rewrite Hhead.
  destruct (last m) as [c|] eqn:Hl; [|by apply last_None in Hl].
  unfold boundary. rewrite Hprev, after_occurrence.
  cbn [is_word_at]. rewrite (last_is_word _ _ Hm Hl).
  rewrite (head_is_word m m0 Hm) by (by rewrite Em). reflexivity.
Qed.

(** Before the occurrence, the pattern matches where it matches in the
    text before the occurrence taken alone. *)
Lemma word_match_before_occurrence (prev : option char) (c : char) (u : str) :
  is_word_at (last (c :: u)) = false →
  word_match ignorecase pat prev ((c :: u) ++ m ++ post) =
  word_match ignorecase pat prev (c :: u).
Proof.
  intros Hlast. unfold word_match.
  pose proof (matched_is_word _ occurrence) as Hm.
  destruct (match_literal ignorecase pat (c :: u)) as [[x y]|] eqn:Hu.
  - destruct (match_literal_inv _ _ _ Hu) as [Hxy HF].
    assert (Hfull : match_literal ignorecase pat ((c :: u) ++ m ++ post)
                    = Some (x, y ++ m ++ post)).
    { rewrite Hxy, <- app_assoc. by apply match_literal_intro. }
    rewrite Hfull. cbn.
    destruct y as [|y0 y]; [|reflexivity].
    exfalso. rewrite app_nil_r in Hxy. subst x.
    destruct (last (c :: u)) as [d|] eqn:Hd; [|by apply last_None in Hd].
    cbn in Hlast. rewrite (last_is_word _ _ (matched_is_word _ HF) Hd) in Hlast.
    discriminate Hlast.
  - destruct (match_literal ignorecase pat ((c :: u) ++ m ++ post))
      as [[x y]|] eqn:Hfull; [|reflexivity].
    cbn. destruct (match_literal_inv _ _ _ Hfull) as [Hxy HF].
    apply app_eq_inv in Hxy as [(k & Hk & Hy) | (k & Hk & Hy)].
    + exfalso. rewrite Hk, (match_literal_intro _ _ HF) in Hu. discriminate Hu.
    + apply app_eq_inv in Hy as [(k' & Hk' & Hy') | (k' & Hk' & Hy')].
      * (* the match ends after the occurrence began, inside it or at its end *)
        destruct (decide (k = [])) as [->|Hkne].
        { exfalso. rewrite app_nil_r in Hk. subst x.
          rewrite <- (app_nil_r (c :: u)) in Hu.
          rewrite (match_literal_intro _ _ HF) in Hu. discriminate Hu. }
        assert (Hlen : (length k < length m)%nat).
        { pose proof (Forall2_length _ _ _ HF) as L1.
          pose proof (Forall2_length _ _ _ occurrence) as L2.
          rewrite Hk, length_app in L1. cbn [length] in L1. lia. }
        assert (Hk'ne : k' ≠ []).
        { intros ->. rewrite app_nil_r in Hk'. subst k. lia. }
        assert (Hwk : Forall (λ c, is_word c = true) k ∧
                      Forall (λ c, is_word c = true) k').
        { rewrite Hk' in Hm. by apply Forall_app in Hm. }
        destruct Hwk as [Hwk Hwk'].
        destruct (last k) as [d|] eqn:Hd; [|by apply last_None in Hd].
        assert (Hlx : last x = Some d).
        { rewrite Hk. apply last_Some in Hd as [k0 ->].
          rewrite app_assoc. apply last_snoc. }
        rewrite Hlx, Hy'.
        destruct k' as [|e k']; [done|]. cbn [head app].
        unfold boundary at 2. cbn [is_word_at].
        rewrite (last_is_word _ _ Hwk Hd).
        assert (He : is_word e = true) by (by inversion Hwk').
        rewrite He. cbn. by rewrite andb_false_r.
      * exfalso.
        pose proof (Forall2_length _ _ _ HF) as L1.
        pose proof (Forall2_length _ _ _ occurrence) as L2.
        rewrite Hk, Hk', !length_app in L1. cbn [length] in L1. lia.
Qed.

Lemma word_match_inv (prev : option char) (s x : str) :
  word_match ignorecase pat prev s = Some x →
  ∃ rest, s = x ++ rest ∧ x ≠ [].
Proof.
  unfold word_match.
  destruct (match_literal ignorecase pat s) as [[x' rest]|] eqn:Hs; [|done].
  cbn. destruct (_ && _); [|done]. intros [= ->].
  destruct (match_literal_inv _ _ _ Hs) as [-> HF].
  exists rest. split; [reflexivity|].
  intros ->. apply Forall2_nil_inv_r in HF. by apply pat_nonempty.
Qed.

(** No match begins at a character that is not a word character. *)
Lemma word_match_at_non_word (prev : option char) (c : char) (s : str) :
  is_word c = false → word_match ignorecase pat prev (c :: s) = None.
Proof.
  intros Hc. unfold word_match.
  by rewrite (match_literal_non_word pat c s pat_nonempty pat_matches_words Hc).
Qed.

(** After the occurrence, the scan does not depend on the character
    before. *)
Lemma sub_scan_after_occurrence (prev1 prev2 : option char) (s : str) :
  is_word_at (head s) = false →
  sub_scan ignorecase pat repl 0 None prev1 s =
  sub_scan ignorecase pat repl 0 None prev2 s.
Proof.
  intros Hs. destruct s as [|c s]; cbn.
  - by rewrite (bool_decide_eq_false_2 (pat = [])) by exact pat_nonempty.
  - by rewrite !word_match_at_non_word by exact Hs.
Qed.

(** At the occurrence: the callback's result, then the scan of what
    follows. *)
Lemma sub_scan_at_occurrence (prev : option char) :
  is_word_at prev = false →
  sub_scan ignorecase pat repl 0 None prev (m ++ post) =
    r ← repl m;
    rest ← sub_scan ignorecase pat repl 0 None None post;
    Ok (joined r ++ rest).
Proof.
  intros Hprev. pose proof (word_match_at_occurrence prev Hprev) as Hw.
  pose proof occurrence_nonempty as Hne.
  destruct m as [|m0 m'] eqn:Em; [done|].
  cbn [app sub_scan limit_reached]. cbn [app] in Hw. rewrite Hw.
  cbn [length pred limit_pred].
  rewrite sub_scan_skip.
  by rewrite (sub_scan_after_occurrence _ None) by exact after_occurrence.
Qed.

(** Before the occurrence: the scan of the text before it, taken alone,
    then the scan from the occurrence on. *)
Lemma sub_scan_before_occurrence (u : str) (k : nat) (prev : option char) :
  (k ≤ length u)%nat → is_word_at (last u) = false →
  sub_scan ignorecase pat repl k None prev (u ++ m ++ post) =
    r1 ← sub_scan ignorecase pat repl k None prev u;
    r2 ← sub_scan ignorecase pat repl 0 None (last_or prev u) (m ++ post);
    Ok (r1 ++ r2).
Proof.
  revert k prev. induction u as [|c u IH]; intros k prev Hk Hlast.
  - replace k with 0%nat by (cbn in Hk; lia). cbn [app sub_scan].
    rewrite (bool_decide_eq_false_2 (pat = [])) by exact pat_nonempty.
    rewrite andb_false_r. cbn [andb]. rewrite result_bind_ok.
    unfold last_or. cbn [last app].
    by destruct (sub_scan ignorecase pat repl 0 None prev (m ++ post)).
  - assert (Hlast' : is_word_at (last u) = false).
    { destruct u as [|d u]; [reflexivity|]. by rewrite last_cons_cons in Hlast. }
    rewrite last_or_cons.
    destruct k as [|k].
    + change ((c :: u) ++ m ++ post) with (c :: (u ++ m ++ post)).
      cbn [sub_scan limit_reached].
      change (c :: (u ++ m ++ post)) with ((c :: u) ++ m ++ post).
      rewrite (word_match_before_occurrence prev c u Hlast).
      destruct (word_match ignorecase pat prev (c :: u)) as [x|] eqn:Hw.
      * destruct (word_match_inv _ _ _ Hw) as (rest & Hx & Hxne).
        destruct x as [|x0 x]; [done|].
        cbn [limit_pred]. rewrite IH; [|injection Hx as _ ->; rewrite length_app; cbn; lia | exact Hlast'].
        destruct (repl (x0 :: x)) as [r|e]; [|reflexivity].
        rewrite !result_bind_ok.
        destruct (sub_scan ignorecase pat repl (pred (length (x0 :: x))) None (Some c) u)
          as [r1|e]; [|reflexivity].
        rewrite !result_bind_ok.
        destruct (sub_scan ignorecase pat repl 0 None (last_or (Some c) u) (m ++ post))
          as [r2|e]; [|reflexivity].
        rewrite !result_bind_ok. by rewrite app_assoc.
      * rewrite IH; [|lia | exact Hlast'].
        destruct (sub_scan ignorecase pat repl 0 None (Some c) u)
          as [r1|e]; [|reflexivity].
        rewrite !result_bind_ok.
        destruct (sub_scan ignorecase pat repl 0 None (last_or (Some c) u) (m ++ post))
          as [r2|e]; [|reflexivity].
        rewrite !result_bind_ok. reflexivity.
    + change ((c :: u) ++ m ++ post) with (c :: (u ++ m ++ post)).
      cbn [sub_scan]. apply IH; [cbn in Hk; lia | exact Hlast'].
Qed.

(** [re.sub] at a whole-word occurrence [m] of the pattern, between
    [pre] and [post]: the result for [pre], what the callback returns for
    [m], the result for [post]. *)
Lemma re_sub_at_occurrence (pre : str) :
  is_word_at (last pre) = false →
  re_sub ignorecase pat repl None (pre ++ m ++ post) =
    pre' ← re_sub ignorecase pat repl None pre;
    r ← repl m;
    post' ← re_sub ignorecase pat repl None post;
    Ok (pre' ++ joined r ++ post').
Proof.
  intros Hpre. unfold re_sub.
  rewrite sub_scan_before_occurrence by (lia || exact Hpre).
  destruct (sub_scan ignorecase pat repl 0 None None pre) as [pre'|e]; [|reflexivity].
  rewrite !result_bind_ok.
  rewrite sub_scan_at_occurrence by (unfold last_or; by destruct (last pre)).
  destruct (repl m) as [r|e]; [|reflexivity].
  rewrite !result_bind_ok.
  destruct (sub_scan ignorecase pat repl 0 None None post) as [post'|e]; [|reflexivity].
  by rewrite !result_bind_ok.
Qed.

End Occurrences.

(** ** The review loop *)

Section ReviewFacts.
Context {U : UnicodeData}.

(** [re.sub] returns whenever its callback does. *)
Lemma sub_scan_total (ignorecase : bool) (pat : str)
    (repl : str → result (option str)) (s : str) :
  (∀ m, ∃ r, repl m = Ok r) →
  ∀ skip count prev, ∃ out, sub_scan ignorecase pat repl skip count prev s = Ok out.
Proof.
  intros Hrepl. induction s as [|c s IH]; intros skip count prev; cbn.
  - destruct (_ && _); [|eauto].
    destruct (Hrepl []) as [r ->]. rewrite result_bind_ok. eauto.
  - destruct skip as [|k]; [|apply IH].
    destruct (limit_reached count); [eauto|].
    destruct (word_match ignorecase pat prev (c :: s)) as [[|m0 m]|].
    + destruct (Hrepl []) as [r ->]. rewrite result_bind_ok.
      destruct (IH 0%nat (limit_pred count) (Some c)) as [out ->].
      rewrite result_bind_ok. eauto.
    + destruct (Hrepl (m0 :: m)) as [r ->]. rewrite result_bind_ok.
      destruct (IH (pred (length (m0 :: m))) (limit_pred count) (Some c)) as [out ->].
      rewrite result_bind_ok. eauto.
    + destruct (IH 0%nat count (Some c)) as [out ->].
      rewrite result_bind_ok. eauto.
Qed.

Lemma highlight_selected_word_total (sentence selected_word : str) :
  ∃ out, highlight_selected_word sentence selected_word = Ok out.
Proof. apply sub_scan_total. eauto. Qed.

(** With a string for replacement, [replace_word_in_sentence] returns. *)
Lemma replace_word_in_sentence_total (sentence word r : str) :
  ∃ out, replace_word_in_sentence sentence word (Some r) = Ok out.
Proof.
  apply sub_scan_total. intros m. unfold replace.
  destruct (isupper m); [eauto|]. destruct (istitle m); eauto.
Qed.

(** With a string for replacement, [replace_word_in_all_sentences] goes
    through the whole list: every sentence is replaced by what
    [replace_word_in_sentence] returns for it. *)
Lemma replace_word_in_all_sentences_total (l : list str) (word r : str) :
  ∃ l', replace_word_in_all_sentences l word (Some r) = (l', None) ∧
        Forall2 (λ x x', replace_word_in_sentence x word (Some r) = Ok x') l l'.
Proof.
  induction l as [|x l (l' & Hl & HF)]; cbn.
  - exists []. split; [reflexivity | constructor].
  - destruct (replace_word_in_sentence_total x word r) as [x' Hx].
    rewrite Hx, Hl. exists (x' :: l'). split; [reflexivity | by constructor].
Qed.

Lemma py_index_last_word {A} (l : list A) (x : A) :
  last l = Some x → py_index l (len l - 1) = Ok x.
Proof.
  intros Hl. destruct (decide (l = [])) as [->|Hne]; [discriminate Hl|].
  destruct (exists_last Hne) as (l' & y & ->).
  rewrite last_snoc in Hl. injection Hl as ->.
  destruct (py_index_in_range (l' ++ [x]) (len (l' ++ [x]) - 1)) as (z & -> & Hz).
  - unfold len. rewrite length_app. cbn [length]. lia.
  - f_equal. unfold len in Hz. rewrite length_app in Hz. cbn [length] in Hz.
    replace (Z.to_nat (Z.of_nat (length l' + 1) - 1)) with (length l') in Hz by lia.
    rewrite list_lookup_middle in Hz by reflexivity. by injection Hz.
Qed.

(** The lines of the entry display, when they do not raise. *)
Lemma show_entry_returns (variation : str) (pi_entry : option Entry)
    (s : Session) :
  (∀ e, pi_entry = Some e → is_Some (PI e !! variation)) →
  ∃ lines, ∀ k, show_entry variation pi_entry s k = k (printing lines s).
Proof.
  intros He. unfold show_entry. destruct pi_entry as [e|].
  - destruct (He e eq_refl) as [v Hv]. rewrite Hv.
    exists [asc "PI Entry: " ++ whole e; variation ++ asc " word: " ++ fmt v].
    intros k. f_equal. unfold say, printing. cbn. by rewrite <- app_assoc.
  - exists [asc "No PI entry found for this word."; []].
    intros k. f_equal. unfold say, printing. cbn. by rewrite <- app_assoc.
Qed.

Lemma printing_printing (l1 l2 : list str) (s : Session) :
  printing l2 (printing l1 s) = printing (l1 ++ l2) s.
Proof. unfold printing. cbn. by rewrite app_assoc. Qed.

(** Up to the prompt: the selected word is shown, its entry is printed,
    and the answer is dispatched; nothing but the printed lines has
    changed. *)
Lemma review_step_prompt (variation : str) (s : Session) (w : str)
    (script : list event) :
  py_index (words s) (selected_word_index s) = Ok w →
  (∀ e, get_entry (pi_dictionary s) (lower w) = Some e →
        is_Some (PI e !! variation)) →
  ∃ lines,
    review_step variation s script =
      dispatch variation w (get_entry (pi_dictionary s) (lower w))
        (printing lines s) script.
Proof.
  intros Hw He. unfold review_step. rewrite Hw. cbn [try_].
  destruct (highlight_selected_word_total (sentence s) w) as [display ->].
  cbn [try_ say pi_dictionary].
  destruct (show_entry_returns variation
              (get_entry (pi_dictionary s) (lower w))
              (say display s)) as [lines Hlines]; [exact He|].
  rewrite Hlines. exists ([display] ++ lines).
  by rewrite <- printing_printing.
Qed.

(** The branch of [n] and of the empty answer. *)
Lemma dispatch_next (variation w : str) (pi_entry : option Entry)
    (s : Session) (line : str) (script : list event) :
  lower line = asc "n" ∨ lower line = [] →
  dispatch variation w pi_entry s (Typed line :: script) =
    try_ (next_word_or_sentence s) s (λ s, Continue s script).
Proof.
  intros Hline. unfold dispatch, action_with_entry. cbv zeta.
  destruct Hline as [-> | ->].
  - rewrite (bool_decide_eq_false_2 (asc "n" = asc "a")) by discriminate.
    by rewrite (bool_decide_eq_true_2 (asc "n" = asc "n")).
  - rewrite (bool_decide_eq_false_2 ([] = asc "a")) by discriminate.
    rewrite (bool_decide_eq_true_2 (@nil N = [])) by reflexivity.
    by rewrite orb_true_r.
Qed.

(** C1 (failing input, in general).  With the cursor on the last word of
    the last sentence, the answer [n] (or an empty line) moves the
    sentence index to [len(sentences)]; the inner loop ends and the
    assignment [sentences[current_sentence_index] = sentence] raises
    [IndexError].  The list itself is as it was. *)
Theorem next_at_last_word_raises (fuel : nat) (variation : str)
    (s : Session) (w line : str) (script : list event) :
  current_sentence_index s = (len (sentences s) - 1)%Z →
  selected_word_index s = (len (words s) - 1)%Z →
  last (words s) = Some w →
  (∀ e, get_entry (pi_dictionary s) (lower w) = Some e →
        is_Some (PI e !! variation)) →
  lower line = asc "n" ∨ lower line = [] →
  ∃ s', run (S (S fuel)) variation InnerLoop s (Typed line :: script)
          = Raised IndexError s' ∧
        sentences s' = sentences s ∧
        current_sentence_index s' = len (sentences s).
Proof.
  intros Hcsi Hswi Hw He Hline.
  assert (Hwords : (0 < len (words s))%Z).
  { unfold len. destruct (words s); [discriminate Hw | cbn; lia]. }
  cbn [run].
  replace (selected_word_index s <? len (words s))%Z with true
    by (symmetry; apply Z.ltb_lt; lia).
  destruct (review_step_prompt variation s w (Typed line :: script))
    as [lines ->]; [by rewrite Hswi; apply py_index_last_word | exact He |].
  rewrite dispatch_next by exact Hline.
  unfold next_word_or_sentence.
  cbn [with_word_index printing selected_word_index words
       current_sentence_index sentences with_sentence_index].
  replace (len (words s) <=? selected_word_index s + 1)%Z with true
    by (symmetry; apply Z.leb_le; lia).
  replace (current_sentence_index s + 1 <? len (sentences s))%Z with false
    by (symmetry; apply Z.ltb_ge; lia).
  cbn [try_ with_word_index with_sentence_index printing selected_word_index
       words current_sentence_index sentences sentence].
  replace (selected_word_index s + 1 <? len (words s))%Z with false
    by (symmetry; apply Z.ltb_ge; lia).
  replace (current_sentence_index s + 1)%Z with (len (sentences s)) by lia.
  rewrite py_setitem_past_end.
  eexists. split; [reflexivity|]. split; reflexivity.
Qed.

(** C2 (failing input, in general).  When the selected word has an
    entry whose [PI] mapping lacks the variation, the line that prints
    the entry raises [KeyError], before any answer is read. *)
Theorem entry_without_variation_raises (fuel : nat) (variation : str)
    (s : Session) (w : str) (e : Entry) (script : list event) :
  (selected_word_index s < len (words s))%Z →
  py_index (words s) (selected_word_index s) = Ok w →
  get_entry (pi_dictionary s) (lower w) = Some e →
  PI e !! variation = None →
  ∃ s', run (S fuel) variation InnerLoop s script = Raised KeyError s' ∧
        sentences s' = sentences s.
Proof.
  intros Hlt Hw Hentry Hpi. cbn [run].
  replace (selected_word_index s <? len (words s))%Z with true
    by (symmetry; apply Z.ltb_lt; lia).
  unfold review_step. rewrite Hw. cbn [try_].
  destruct (highlight_selected_word_total (sentence s) w) as [display ->].
  cbn [try_ say pi_dictionary]. rewrite Hentry.
  unfold show_entry. rewrite Hpi.
  eexists. split; reflexivity.
Qed.

(** The branch of [a] when the selected word has an entry. *)
Lemma dispatch_accept (variation w : str) (e : Entry) (pi_word : option str)
    (s : Session) (line : str) (script : list event) :
  lower line = asc "a" → PI e !! variation = Some pi_word →
  dispatch variation w (Some e) s (Typed line :: script) =
    replace_and_refresh w pi_word
      (asc "All occurrences of '" ++ w ++
       asc "' replaced with '" ++ fmt pi_word ++ asc "'") s (λ s,
    try_ (next_word_or_sentence s) s (λ s, Continue s script)).
Proof.
  intros Hline Hpi. unfold dispatch, action_with_entry. cbv zeta.
  rewrite Hline, (bool_decide_eq_true_2 (asc "a" = asc "a")) by reflexivity.
  by rewrite Hpi.
Qed.

(** The branch of [c] when the selected word has an entry: the
    replacement, then [selected_word_index += 1] and nothing else. *)
Lemma dispatch_customize (variation w : str) (e : Entry) (pi_word : option str)
    (s : Session) (line answer : str) (script : list event) :
  lower line = asc "c" → PI e !! variation = Some pi_word →
  dispatch variation w (Some e) s (Typed line :: Typed answer :: script) =
    let custom_word :=
      match strip answer with [] => pi_word | c :: r => Some (c :: r) end in
    replace_and_refresh w custom_word
      (asc "Word '" ++ w ++ asc "' replaced with customized version '" ++
       fmt custom_word ++ asc "'") s (λ s,
    Continue (with_word_index (selected_word_index s + 1) s) script).
Proof.
  intros Hline Hpi. unfold dispatch, action_with_entry. cbv zeta.
  rewrite Hline.
  rewrite (bool_decide_eq_false_2 (asc "c" = asc "a")) by discriminate.
  rewrite (bool_decide_eq_false_2 (asc "c" = asc "n")) by discriminate.
  rewrite (bool_decide_eq_false_2 (asc "c" = [])) by discriminate.
  rewrite (bool_decide_eq_false_2 (asc "c" = asc "p")) by discriminate.
  rewrite (bool_decide_eq_false_2 (asc "c" = asc "e")) by discriminate.
  rewrite (bool_decide_eq_true_2 (asc "c" = asc "c")) by reflexivity.
  cbn [orb]. by rewrite Hpi.
Qed.

(** With a string for replacement and the sentence index in range, the
    global replacement goes through the whole list, prints its message
    and refreshes [sentence] and [words]; both cursors are as they
    were. *)
Lemma replace_and_refresh_returns (w r message : str) (s : Session)
    (k : Session → step_result) :
  (0 <= current_sentence_index s < len (sentences s))%Z →
  ∃ s', replace_and_refresh w (Some r) message s k = k s' ∧
        Forall2 (λ x x', replace_word_in_sentence x w (Some r) = Ok x')
                (sentences s) (sentences s') ∧
        current_sentence_index s' = current_sentence_index s ∧
        selected_word_index s' = selected_word_index s ∧
        py_index (sentences s') (current_sentence_index s) = Ok (sentence s') ∧
        words s' = split_sentence_into_words (sentence s').
Proof.
  intros Hcsi. unfold replace_and_refresh.
  destruct (replace_word_in_all_sentences_total (sentences s) w r)
    as (l' & -> & HF).
  cbn [with_sentences say sentences current_sentence_index try_].
  destruct (py_index_in_range l' (current_sentence_index s)) as (sen & Hsen & _).
  { unfold len in *. by rewrite <- (Forall2_length _ _ _ HF). }
  rewrite Hsen. cbn [try_]. eexists. split; [reflexivity|].
  cbn [with_sentence sentences current_sentence_index selected_word_index
       sentence words].
  done.
Qed.

Lemma py_setitem_same {A} (l : list A) (i : Z) (x : A) :
  (0 <= i)%Z → py_index l i = Ok x → py_setitem l i x = Ok l.
Proof.
  unfold py_index, py_setitem. intros Hi.
  replace (i <? 0)%Z with false by (symmetry; apply Z.ltb_ge; lia).
  destruct (_ && _); [|done].
  destruct (l !! Z.to_nat i) as [y|] eqn:Hy; [|done].
  intros [= ->]. by rewrite list_insert_id.
Qed.

(** C3 (what the code does).  The customize branch ends with
    [selected_word_index += 1]: the sentence index is never advanced and
    the word index never reset, at the last word of a sentence as
    anywhere else.  When the word was the last of its sentence, the inner
    loop ends, the outer loop takes the same sentence again, and the
    review goes on at its first word. *)
Theorem customize_does_not_roll_over (variation : str) (s : Session)
    (w line answer : str) (e : Entry) (pi_word : option str)
    (c : char) (r : str) (script : list event) :
  (0 <= current_sentence_index s < len (sentences s))%Z →
  py_index (words s) (selected_word_index s) = Ok w →
  get_entry (pi_dictionary s) (lower w) = Some e →
  PI e !! variation = Some pi_word →
  lower line = asc "c" → strip answer = c :: r →
  ∃ s', review_step variation s (Typed line :: Typed answer :: script)
          = Continue s' script ∧
        current_sentence_index s' = current_sentence_index s ∧
        selected_word_index s' = (selected_word_index s + 1)%Z ∧
        ((selected_word_index s < len (words s))%Z →
         (len (words s') <= selected_word_index s + 1)%Z →
         ∀ fuel,
           run (S (S (S fuel))) variation InnerLoop s
               (Typed line :: Typed answer :: script)
           = run fuel variation InnerLoop (with_word_index 0 s') script).
Proof.
  intros Hcsi Hw Hentry Hpi Hline Hans.
  destruct (review_step_prompt variation s w
              (Typed line :: Typed answer :: script)) as [lines Hstep];
    [exact Hw | intros e' He'; rewrite Hentry in He'; injection He' as <-; eauto |].
  rewrite Hentry, (dispatch_customize _ _ _ pi_word) in Hstep by done.
  cbv zeta in Hstep. rewrite Hans in Hstep.
  match type of Hstep with
  | context [replace_and_refresh _ _ ?msg ?s1 ?k] =>
      destruct (replace_and_refresh_returns w (c :: r) msg s1 k)
        as (s0 & Hs0 & HF & Hc & Hi & Hsen & Hwords);
        [exact Hcsi|]
  end.
  rewrite Hs0 in Hstep. clear Hs0.
  cbn [printing current_sentence_index selected_word_index sentences] in Hc, Hi, Hsen, HF.
  exists (with_word_index (selected_word_index s0 + 1) s0).
  split; [exact Hstep|].
  cbn [with_word_index current_sentence_index selected_word_index words
       sentences sentence].
  split; [exact Hc|]. split; [by rewrite Hi|].
  intros Hlt Hend fuel. cbn [run].
  replace (selected_word_index s <? len (words s))%Z with true
    by (symmetry; apply Z.ltb_lt; lia).
  rewrite Hstep.
  cbn [with_word_index current_sentence_index selected_word_index words
       sentences sentence].
  replace (selected_word_index s0 + 1 <? len (words s0))%Z with false
    by (symmetry; apply Z.ltb_ge; lia).
  rewrite Hc, (py_setitem_same _ _ _ (proj1 Hcsi) Hsen).
  cbn [with_sentences with_word_index current_sentence_index sentences].
  assert (Hlen : len (sentences s0) = len (sentences s)).
  { unfold len. by rewrite (Forall2_length _ _ _ HF). }
  rewrite !Hc.
  replace (current_sentence_index s <? len (sentences s0))%Z with true
    by (symmetry; apply Z.ltb_lt; lia).
  rewrite Hsen. f_equal.
  unfold with_word_index, with_sentence.
  cbn [sentences current_sentence_index sentence words selected_word_index
       pi_dictionary printed].
  by rewrite <- Hwords, Hc.
Qed.

Lemma next_word_or_sentence_returns (s : Session) :
  (0 <= current_sentence_index s)%Z →
  ∃ s', next_word_or_sentence s = Ok s' ∧ sentences s' = sentences s.
Proof.
  intros Hcsi. unfold next_word_or_sentence.
  cbn [with_word_index with_sentence_index words selected_word_index
       current_sentence_index sentences].
  destruct (len (words s) <=? selected_word_index s + 1)%Z; [|eauto].
  destruct (current_sentence_index s + 1 <? len (sentences s))%Z eqn:Hlt; [|eauto].
  apply Z.ltb_lt in Hlt.
  destruct (py_index_in_range (sentences s) (current_sentence_index s + 1))
    as (sen & -> & _); [lia|].
  rewrite result_bind_ok. eauto.
Qed.

(** C9.  When the selected word has an entry with a string for the
    variation and the user answers [a], or answers [c] and types a
    replacement, the step goes on with a list in which every sentence of
    the shared list, the current one and all the others, is what
    [replace_word_in_sentence] returns for it: the case-insensitive
    whole-word substitution whose callback adapts each match to its own
    case.  At a whole-word occurrence [m] of the word between [pre] and
    [post], that result is the result for [pre], the replacement in the
    case of [m], and the result for [post]. *)
Theorem accept_and_customize_replace_everywhere (variation : str)
    (s : Session) (w : str) (e : Entry) (r : str) (script : list event) :
  (0 <= current_sentence_index s < len (sentences s))%Z →
  py_index (words s) (selected_word_index s) = Ok w →
  get_entry (pi_dictionary s) (lower w) = Some e →
  PI e !! variation = Some (Some r) →
  (∀ line, lower line = asc "a" →
     ∃ s', review_step variation s (Typed line :: script) = Continue s' script ∧
           Forall2 (λ x x', replace_word_in_sentence x w (Some r) = Ok x')
                   (sentences s) (sentences s')) ∧
  (∀ line answer c custom, lower line = asc "c" → strip answer = c :: custom →
     ∃ s', review_step variation s (Typed line :: Typed answer :: script)
             = Continue s' script ∧
           Forall2 (λ x x', replace_word_in_sentence x w (Some (c :: custom)) = Ok x')
                   (sentences s) (sentences s')) ∧
  (∀ (matched_word : str),
     replace (Some r) matched_word =
       Ok (Some (if isupper matched_word then upper r
                 else if istitle matched_word then capitalize r
                 else r))) ∧
  (∀ (pre m post : str),
     w ≠ [] →
     (∀ p c, p ∈ w → uc_ieq p c = true → is_word c = true) →
     Forall2 (λ p c, uc_ieq p c = true) w m →
     is_word_at (last pre) = false → is_word_at (head post) = false →
     replace_word_in_sentence (pre ++ m ++ post) w (Some r) =
       pre' ← replace_word_in_sentence pre w (Some r);
       post' ← replace_word_in_sentence post w (Some r);
       Ok (pre' ++ (if isupper m then upper r
                    else if istitle m then capitalize r
                    else r) ++ post')).
Proof.
  intros Hcsi Hw Hentry Hpi.
  assert (He : ∀ e', get_entry (pi_dictionary s) (lower w) = Some e' →
                     is_Some (PI e' !! variation)).
  { intros e' He'. rewrite Hentry in He'. injection He' as <-. eauto. }
  split; [|split; [|split]].
  - intros line Hline.
    destruct (review_step_prompt variation s w (Typed line :: script))
      as [lines ->]; [exact Hw | exact He |].
    rewrite Hentry, (dispatch_accept _ _ _ (Some r)) by done.
    edestruct (replace_and_refresh_returns w r) as (s' & -> & HF & Hc & _).
    { cbn [printing current_sentence_index sentences]. exact Hcsi. }
    destruct (next_word_or_sentence_returns s') as (s'' & -> & Hs'').
    { rewrite Hc. cbn [printing current_sentence_index]. lia. }
    cbn [try_]. exists s''. split; [reflexivity|]. by rewrite Hs''.
  - intros line answer c custom Hline Hans.
    destruct (review_step_prompt variation s w
                (Typed line :: Typed answer :: script)) as [lines ->];
      [exact Hw | exact He |].
    rewrite Hentry, (dispatch_customize _ _ _ (Some r)) by done.
    cbv zeta. rewrite Hans.
    edestruct (replace_and_refresh_returns w (c :: custom)) as (s' & -> & HF & _).
    { cbn [printing current_sentence_index sentences]. exact Hcsi. }
    eexists. split; [reflexivity|]. exact HF.
  - intros m. unfold replace. destruct (isupper m); [done|].
    by destruct (istitle m).
  - intros pre m post Hw' Hwords Hm Hpre Hpost. unfold replace_word_in_sentence.
    rewrite (re_sub_at_occurrence true w (replace (Some r)) Hw' Hwords m post Hm Hpost)
      by exact Hpre.
    destruct (re_sub true w (replace (Some r)) None pre) as [pre'|]; [|reflexivity].
    rewrite !result_bind_ok.
    assert (Hr : replace (Some r) m =
                 Ok (Some (if isupper m then upper r
                           else if istitle m then capitalize r else r))).
    { unfold replace. destruct (isupper m); [done|]. by destruct (istitle m). }
    rewrite Hr, result_bind_ok. reflexivity.
Qed.

End ReviewFacts.

(** ** The review loop on examples *)

Lemma next_at_last_word_raises_witness :
  ∃ s', run 2 L1 InnerLoop
          (prompt_at ∅ [asc "Hi there"] 0 (asc "Hi there") 1)
          [Typed (asc "n")]
          = Raised IndexError s' ∧
        sentences s' = sentences (prompt_at ∅ [asc "Hi there"] 0 (asc "Hi there") 1) ∧
        current_sentence_index s' =
          len (sentences (prompt_at ∅ [asc "Hi there"] 0 (asc "Hi there") 1)).
Proof.
  apply (next_at_last_word_raises 0 L1
           (prompt_at ∅ [asc "Hi there"] 0 (asc "Hi there") 1)
           (asc "there") (asc "n") []).
  - vm_compute. reflexivity.
  - vm_compute. reflexivity.
  - vm_compute. reflexivity.
  - intros e He. vm_compute in He. discriminate He.
  - left. vm_compute. reflexivity.
Defined.

(** The whole function on a list of one sentence of one word: the answer
    [n] ends in [IndexError], with any amount of fuel from three on. *)
Lemma review_of_one_word_raises (fuel : nat) :
  ∃ s', process_sentence_interactively (3 + fuel) ∅ [asc "Hi"] 0 L1
          [Typed (asc "n")] = Raised IndexError s' ∧
        sentences s' = [asc "Hi"] ∧ current_sentence_index s' = 1%Z.
Proof. evaluate. Qed.

(** Two sentences of two words: three times [n] from the start leave the
    cursor on the last word of the last sentence, waiting; a fourth [n]
    raises. *)
Lemma rollover_then_raise :
  (∃ s', process_sentence_interactively 10 ∅ [asc "a b"; asc "c d"] 0 L1
           [Typed (asc "n"); Typed (asc "n"); Typed (asc "n")]
           = AwaitingInput s' ∧
         current_sentence_index s' = 1%Z ∧ selected_word_index s' = 1%Z) ∧
  (∃ s', process_sentence_interactively 10 ∅ [asc "a b"; asc "c d"] 0 L1
           [Typed (asc "n"); Typed (asc "n"); Typed (asc "n"); Typed (asc "n")]
           = Raised IndexError s' ∧
         sentences s' = [asc "a b"; asc "c d"]).
Proof. evaluate. Qed.

(** The answer [q] is the way the function returns. *)
Lemma quit_returns :
  ∃ s', process_sentence_interactively 10 ∅ [asc "Hi"] 0 L1 [Typed (asc "q")]
          = Returned s' ∧ sentences s' = [asc "Hi"].
Proof. evaluate. Qed.

Lemma entry_without_variation_raises_witness :
  ∃ s', run 1 L1 InnerLoop
          (prompt_at (entry_with "cat" ∅) [asc "cat"] 0 (asc "cat") 0) []
          = Raised KeyError s' ∧
        sentences s' =
          sentences (prompt_at (entry_with "cat" ∅) [asc "cat"] 0 (asc "cat") 0).
Proof.
  apply (entry_without_variation_raises 0 L1
           (prompt_at (entry_with "cat" ∅) [asc "cat"] 0 (asc "cat") 0)
           (asc "cat") {| whole := asc "cat"; PI := ∅ |} []).
  - vm_compute. reflexivity.
  - vm_compute. reflexivity.
  - vm_compute. reflexivity.
  - vm_compute. reflexivity.
Defined.

(** An entry whose value for the variation is null.  The display prints
    [L1 word: None].  The answer [a] then passes [None] to the global
    replacement: on the lowercase word [cat] the callback returns [None]
    and [re.sub] deletes the word; on [Cat] the callback calls
    [None.capitalize()], which raises [AttributeError]. *)
Lemma accept_null_value :
  (∃ s', process_sentence_interactively 10 (entry_with "cat" {[ L1 := None ]})
           [asc "cat sat"; asc "mat"] 0 L1 [Typed (asc "a")]
           = AwaitingInput s' ∧
         sentences s' = [asc " sat"; asc "mat"] ∧
         printed s' !! 2%nat = Some (asc "L1 word: None")) ∧
  (∃ s', process_sentence_interactively 10 (entry_with "cat" {[ L1 := None ]})
           [asc "Cat sat"; asc "mat"] 0 L1 [Typed (asc "a")]
           = Raised AttributeError s').
Proof. evaluate. Qed.

Lemma customize_does_not_roll_over_witness :
  ∃ s', review_step L1
          (prompt_at (one_entry "cat" "kat") [asc "cat"; asc "dog"] 0 (asc "cat") 0)
          [Typed (asc "c"); Typed (asc "kat")]
          = Continue s' [] ∧
        current_sentence_index s' = 0%Z ∧ selected_word_index s' = 1%Z.
Proof.
  destruct (customize_does_not_roll_over L1
           (prompt_at (one_entry "cat" "kat") [asc "cat"; asc "dog"] 0 (asc "cat") 0)
           (asc "cat") (asc "c") (asc "kat")
           {| whole := asc "cat"; PI := {[ L1 := Some (asc "kat") ]} |}
           (Some (asc "kat")) 107 (asc "at") [])
    as (s' & Hstep & Hc & Hi & _).
  - vm_compute. split; [discriminate | reflexivity].
  - vm_compute. reflexivity.
  - vm_compute. reflexivity.
  - vm_compute. reflexivity.
  - vm_compute. reflexivity.
  - vm_compute. reflexivity.
  - exists s'. split; [exact Hstep|]. split; [exact Hc | exact Hi].
Defined.

(** On [cat | dog] with the cursor on [cat], the last word of the first
    sentence: after [a] the loop waits on the first word of the second
    sentence; after [c] it waits on the first word of the first sentence
    again. *)
Lemma customize_restarts_the_sentence :
  (∃ s', process_sentence_interactively 10 (one_entry "cat" "kat")
           [asc "cat"; asc "dog"] 0 L1 [Typed (asc "a")] = AwaitingInput s' ∧
         sentences s' = [asc "kat"; asc "dog"] ∧
         current_sentence_index s' = 1%Z ∧ selected_word_index s' = 0%Z) ∧
  (∃ s', process_sentence_interactively 10 (one_entry "cat" "kat")
           [asc "cat"; asc "dog"] 0 L1 [Typed (asc "c"); Typed (asc "kat")]
           = AwaitingInput s' ∧
         sentences s' = [asc "kat"; asc "dog"] ∧
         current_sentence_index s' = 0%Z ∧ selected_word_index s' = 0%Z).
Proof. evaluate. Qed.

Lemma accept_and_customize_replace_everywhere_witness :
  ∃ s', review_step L1
          (prompt_at (one_entry "cat" "kat")
             [asc "the cat"; asc "a dog"; asc "Cat, CAT and cats"] 0
             (asc "the cat") 1)
          [Typed (asc "a")] = Continue s' [] ∧
        Forall2 (λ x x', replace_word_in_sentence x (asc "cat") (Some (asc "kat")) = Ok x')
          (sentences (prompt_at (one_entry "cat" "kat")
             [asc "the cat"; asc "a dog"; asc "Cat, CAT and cats"] 0
             (asc "the cat") 1))
          (sentences s').
Proof.
  refine (proj1 (accept_and_customize_replace_everywhere L1
           (prompt_at (one_entry "cat" "kat")
             [asc "the cat"; asc "a dog"; asc "Cat, CAT and cats"] 0
             (asc "the cat") 1)
           (asc "cat") {| whole := asc "cat"; PI := {[ L1 := Some (asc "kat") ]} |}
           (asc "kat") [] _ _ _ _) (asc "a") _).
  - vm_compute. split; [discriminate | reflexivity].
  - vm_compute. reflexivity.
  - vm_compute. reflexivity.
  - vm_compute. reflexivity.
  - vm_compute. reflexivity.
Defined.

(** Accepting [cat] on the first sentence rewrites the third one too,
    each occurrence in its own case; [cats] is another word. *)
Lemma accept_reaches_other_sentences :
  ∃ s', process_sentence_interactively 10 (one_entry "cat" "kat")
          [asc "the cat"; asc "a dog"; asc "Cat, CAT and cats"] 0 L1
          [Typed (asc "n"); Typed (asc "a")] = AwaitingInput s' ∧
        sentences s' = [asc "the kat"; asc "a dog"; asc "Kat, KAT and cats"].
Proof. evaluate. Qed.

(** The characters that match a letter of [cat] when case is ignored are
    letters. *)
Lemma simple_lower_cases (c : N) :
  (65 ≤ c ≤ 90 ∧ Tables.simple_lower c = c + 32) ∨
  (c = 0x130 ∧ Tables.simple_lower c = 105) ∨
  (c = 0x212a ∧ Tables.simple_lower c = 107) ∨
  Tables.simple_lower c = c.
Proof.
  unfold Tables.simple_lower, Tables.between.
  destruct (N.leb_spec 65 c); cbn [andb];
    [destruct (N.leb_spec c 90); [left; split; [lia | reflexivity]|]|];
    (destruct (N.eqb_spec c 0x130); [right; left; by split|]);
    (destruct (N.eqb_spec c 0x212a); [right; right; left; by split|]);
    by repeat right.
Qed.

Lemma isalnum_letter (c : N) :
  65 ≤ c ≤ 90 ∨ 97 ≤ c ≤ 122 → Tables.isalnum c = true.
Proof.
  intros H. unfold Tables.isalnum, Tables.between.
  rewrite !orb_true_iff, !andb_true_iff, !N.leb_le. tauto.
Qed.

Lemma cat_matches_words (p c : N) :
  p ∈ asc "cat" → uc_ieq p c = true → is_word c = true.
Proof.
  intros Hp H. change (asc "cat") with [99; 97; 116] in Hp.
  unfold is_word. cbn [uc_ieq uc_isalnum python_tables] in *.
  apply orb_true_intro. left. apply isalnum_letter.
  assert (Hl : Tables.simple_lower c = p).
  { set_unfold in Hp. destruct Hp as [->|[->|[->|[]]]].
    - change (Tables.ieq 99 c) with ((Tables.simple_lower c =? 99) || false) in H.
      rewrite orb_false_r in H. by apply N.eqb_eq in H.
    - change (Tables.ieq 97 c) with ((Tables.simple_lower c =? 97) || false) in H.
      rewrite orb_false_r in H. by apply N.eqb_eq in H.
    - change (Tables.ieq 116 c) with ((Tables.simple_lower c =? 116) || false) in H.
      rewrite orb_false_r in H. by apply N.eqb_eq in H. }
  assert (Hp' : p = 99 ∨ p = 97 ∨ p = 116).
  { set_unfold in Hp. tauto. }
  destruct (simple_lower_cases c) as [[? ?]|[[? ?]|[[? ?]|?]]]; lia.
Qed.

(** [re.sub] around the occurrence [Cat] of [cat], whatever the text
    before and after it, as long as no word character touches it. *)
Lemma replace_around_Cat (pre post r : str) :
  is_word_at (last pre) = false → is_word_at (head post) = false →
  re_sub true (asc "cat") (replace (Some r)) None (pre ++ asc "Cat" ++ post) =
    pre' ← re_sub true (asc "cat") (replace (Some r)) None pre;
    m' ← replace (Some r) (asc "Cat");
    post' ← re_sub true (asc "cat") (replace (Some r)) None post;
    Ok (pre' ++ joined m' ++ post').
Proof.
  intros Hpre Hpost.
  apply (re_sub_at_occurrence true (asc "cat") (replace (Some r)));
    [discriminate | exact cat_matches_words | | exact Hpost | exact Hpre].
  change (asc "cat") with [99; 97; 116]. change (asc "Cat") with [67; 97; 116].
  repeat constructor.
Qed.

(** * Further properties *)

(** ** [str.strip] *)

Section Strip.
Context {U : UnicodeData}.

Lemma lstrip_head (s : str) (c : char) :
  head (lstrip s) = Some c → uc_isspace c = false.
Proof.
  induction s as [|d s IH]; cbn; [done|].
  destruct (uc_isspace d) eqn:Hd; [exact IH|].
  cbn. by intros [= <-].
Qed.

Lemma lstrip_id (s : str) :
  (∀ c, head s = Some c → uc_isspace c = false) → lstrip s = s.
Proof.
  destruct s as [|d s]; [reflexivity|]. intros H. cbn.
  by rewrite (H d eq_refl).
Qed.

Lemma lstrip_split (s : str) :
  ∃ sp, s = sp ++ lstrip s ∧ Forall (λ c, uc_isspace c = true) sp.
Proof.
  induction s as [|d s (sp & Hs & Hsp)]; cbn.
  - by exists [].
  - destruct (uc_isspace d) eqn:Hd.
    + exists (d :: sp). split; [by rewrite Hs at 1 | by constructor].
    + by exists [].
Qed.

(** What [strip] returns has no whitespace at either end: stripping it
    again changes nothing. *)
Lemma strip_strip (s : str) : strip (strip s) = strip s.
Proof.
  unfold strip at 2 3.
  set (t := lstrip s).
  assert (Ht : ∀ c, head t = Some c → uc_isspace c = false)
    by (intros c; apply lstrip_head).
  destruct (lstrip_split (rev t)) as (sp & Hrev & Hsp).
  set (u := lstrip (rev t)) in *.
  assert (Hu : ∀ c, head u = Some c → uc_isspace c = false)
    by (intros c; apply lstrip_head).
  assert (Hr : ∀ c, head (rev u) = Some c → uc_isspace c = false).
  { intros c Hc. apply Ht.
    assert (Htu : t = rev u ++ rev sp).
    { rewrite <- (rev_involutive t), Hrev. apply rev_app_distr. }
    rewrite Htu. destruct (rev u); [discriminate Hc | exact Hc]. }
  unfold strip. rewrite (lstrip_id _ Hr), rev_involutive, (lstrip_id _ Hu).
  reflexivity.
Qed.




End Strip.

(** ** [split_into_sentences] *)

Section SentenceFacts.
Context {U : UnicodeData}.


Lemma sentence_break_after (before : str) (c : char) :
  sentence_break before c = true →
  ∃ d rest, before = d :: rest ∧
    ((d =? 46) || (d =? 63) || (d =? 33) || (d =? 10)) = true.
Proof.
  unfold sentence_break. intros H.
  apply andb_true_iff in H as [H _].
  apply andb_true_iff in H as [_ H].
  destruct before as [|d rest]; [discriminate H|]. by exists d, rest.
Qed.



Lemma split_scan_no_terminator (before s : str) :
  Forall (λ d, ((d =? 46) || (d =? 63) || (d =? 33) || (d =? 10)) = false)
         (before ++ s) →
  split_scan before s = (s, []).
Proof.
  revert before. induction s as [|c s IH]; intros before H; [reflexivity|].
  cbn [split_scan]. rewrite (IH (c :: before)).
  - destruct (sentence_break before c) eqn:Hb; [|reflexivity].
    destruct (sentence_break_after _ _ Hb) as (d & rest & -> & Hd).
    apply Forall_inv in H. congruence.
  - apply Forall_app in H as [H1 H2]. apply Forall_app. split.
    + constructor; [exact (Forall_inv H2) | exact H1].
    + exact (Forall_inv_tail H2).
Qed.

(** X1.  Every sentence that [split_into_sentences] returns is non-empty
    and carries no whitespace at either end: [strip] leaves it as it is. *)
Theorem split_into_sentences_stripped (text : str) :
  Forall (λ sentence, sentence ≠ [] ∧ strip sentence = sentence)
         (split_into_sentences text).
Proof.
  unfold split_into_sentences.
  induction (re_split_sentences text) as [|x pieces IH]; [constructor|].
  cbn [omap list_omap].
  destruct (strip x) as [|c r] eqn:Hx; [exact IH|].
  constructor; [|exact IH]. split; [discriminate|].
  rewrite <- Hx. apply strip_strip.
Qed.


(** X3.  A text with no full stop, question mark, exclamation mark or
    newline is one sentence, the text stripped; it gives no sentence at
    all when it holds whitespace only. *)
Theorem split_into_sentences_no_terminator (text : str) :
  Forall (λ d, ((d =? 46) || (d =? 63) || (d =? 33) || (d =? 10)) = false)
         text →
  split_into_sentences text =
    match strip text with [] => [] | c :: r => [c :: r] end.
Proof.
  intros H. unfold split_into_sentences, re_split_sentences.
  rewrite (split_scan_no_terminator [] text H).
  cbn [omap list_omap]. by destruct (strip text).
Qed.

End SentenceFacts.

Lemma split_into_sentences_no_terminator_witness :
  Forall (λ d, ((d =? 46) || (d =? 63) || (d =? 33) || (d =? 10)) = false)
         (asc "  two cats ") ∧
  split_into_sentences (asc "  two cats ") =
    match strip (asc "  two cats ") with [] => [] | c :: r => [c :: r] end.
Proof.
  split.
  - repeat constructor.
  - apply (split_into_sentences_no_terminator (asc "  two cats ")).
    repeat constructor.
Defined.

(** ** [split_sentence_into_words] *)

Section WordFacts.
Context {U : UnicodeData}.

(** The run that starts the text, what follows it, and where the later
    runs lie in what follows. *)
Lemma word_runs_spec (s : str) :
  ∃ rest, s = (word_runs s).1 ++ rest ∧
    Forall (λ c, is_word c = true) (word_runs s).1 ∧
    is_word_at (head rest) = false ∧
    Forall (λ w, w ≠ [] ∧ Forall (λ c, is_word c = true) w ∧
                 ∃ pre post, rest = pre ++ w ++ post ∧ pre ≠ [] ∧
                   is_word_at (last pre) = false ∧
                   is_word_at (head post) = false)
           (word_runs s).2.
Proof.
  induction s as [|c s (rest & Hs & Hw & Hrest & Hws)].
  - exists []. cbn. repeat split; constructor.
  - cbn [word_runs]. destruct (word_runs s) as [w ws]. cbn [fst snd] in *.
    destruct (is_word c) eqn:Hc; cbn [fst snd].
    + exists rest. repeat split; [by rewrite Hs at 1 | by constructor | done | done].
    + exists (c :: s). repeat split; [constructor | exact Hc |].
      assert (Hlater : Forall (λ w0, w0 ≠ [] ∧ Forall (λ c, is_word c = true) w0 ∧
                 ∃ pre post, c :: s = pre ++ w0 ++ post ∧ pre ≠ [] ∧
                   is_word_at (last pre) = false ∧
                   is_word_at (head post) = false) ws).
      { eapply Forall_impl; [exact Hws|].
        intros x (Hx & Hxw & pre & post & Hpre & Hne & Hl & Hp).
        repeat split; [exact Hx | exact Hxw |].
        exists (c :: w ++ pre), post. repeat split; [| done | | exact Hp].
        - rewrite Hs at 1. rewrite Hpre. cbn. by rewrite <- !app_assoc.
        - change (c :: w ++ pre) with ((c :: w) ++ pre). rewrite last_app.
          destruct (last pre) eqn:E; [exact Hl | by apply last_None in E]. }
      destruct w as [|w0 w]; [exact Hlater|].
      constructor; [|exact Hlater].
      repeat split; [done | exact Hw |].
      exists [c], rest. repeat split; [by rewrite Hs at 1 | done | exact Hc | exact Hrest].
Qed.

Lemma words_are_occurrences (sentence : str) :
  Forall (λ w, w ≠ [] ∧ Forall (λ c, is_word c = true) w ∧
               ∃ pre post, sentence = pre ++ w ++ post ∧
                 is_word_at (last pre) = false ∧
                 is_word_at (head post) = false)
         (split_sentence_into_words sentence).
Proof.
  unfold split_sentence_into_words.
  destruct (word_runs_spec sentence) as (rest & Hs & Hw & Hrest & Hws).
  destruct (word_runs sentence) as [w ws]. cbn [fst snd] in *.
  assert (Hlater : Forall (λ w0, w0 ≠ [] ∧ Forall (λ c, is_word c = true) w0 ∧
               ∃ pre post, sentence = pre ++ w0 ++ post ∧
                 is_word_at (last pre) = false ∧
                 is_word_at (head post) = false) ws).
  { eapply Forall_impl; [exact Hws|].
    intros x (Hx & Hxw & pre & post & Hpre & Hne & Hl & Hp).
    repeat split; [exact Hx | exact Hxw |].
    exists (w ++ pre), post. repeat split; [| | exact Hp].
    - by rewrite Hs, Hpre, <- !app_assoc.
    - rewrite last_app.
      destruct (last pre) eqn:E; [exact Hl | by apply last_None in E]. }
  destruct w as [|w0 w]; [exact Hlater|].
  constructor; [|exact Hlater].
  repeat split; [done | exact Hw |].
  exists [], rest. repeat split; [exact Hs | exact Hrest].
Qed.

(** X4.  Each word of a sentence is a non-empty run of word characters
    that stands in the sentence between characters that are not word
    characters (or at an end of it). *)
Theorem split_sentence_into_words_occurrences (sentence : str) :
  Forall (λ w, w ≠ [] ∧ Forall (λ c, is_word c = true) w ∧
               ∃ pre post, sentence = pre ++ w ++ post ∧
                 is_word_at (last pre) = false ∧
                 is_word_at (head post) = false)
         (split_sentence_into_words sentence).
Proof. apply words_are_occurrences. Qed.

(** The tokens of [findall_tokens] after the one being read, reduced to
    the word tokens, are the word runs. *)
Lemma scan_word_runs (s : str) :
  Forall (λ c, is_word c = true → uc_isspace c = false) s →
  ∀ a,
    match a with
    | Word =>
        (scan a s).1 = (word_runs s).1 ∧
        filter (λ t, is_word_at (head t) = true) (scan a s).2 = (word_runs s).2
    | _ =>
        filter (λ t, is_word_at (head t) = true) (scan a s).2 =
        split_sentence_into_words s
    end.
Proof.
  unfold split_sentence_into_words.
  induction s as [|c s IH]; intros Hd a; [by destruct a|].
  specialize (IH (Forall_inv_tail Hd)).
  pose proof (Forall_inv Hd) as Hc. cbn beta in Hc.
  pose proof (IH Word) as [IW1 IW2].
  pose proof (IH Punct) as IP. pose proof (IH Space) as IS.
  cbn [scan word_runs]. unfold first_alt.
  destruct (word_runs s) as [w ws]. cbn [fst snd] in *.
  destruct (is_word c) eqn:Hw.
  - destruct a; cbn [alt_matches]; rewrite ?Hw, ?(Hc eq_refl); cbn [negb andb];
      destruct (scan Word s) as [t ts]; cbn [fst snd] in *.
    + by subst.
    + rewrite filter_cons_True by (cbn; by rewrite Hw). by subst.
    + rewrite filter_cons_True by (cbn; by rewrite Hw). by subst.
  - destruct a; cbn [alt_matches]; rewrite ?Hw; cbn [negb andb].
    + destruct (uc_isspace c).
      * destruct (scan Space s) as [t ts]; cbn [fst snd] in *.
        split; [reflexivity|].
        rewrite filter_cons_False by (cbn; by rewrite Hw). exact IS.
      * destruct (scan Punct s) as [t ts]; cbn [fst snd] in *.
        split; [reflexivity|].
        rewrite filter_cons_False by (cbn; by rewrite Hw). exact IP.
    + destruct (uc_isspace c) eqn:Hsp; cbn [negb].
      * destruct (scan Space s) as [t ts]; cbn [fst snd] in *.
        rewrite filter_cons_False by (cbn; by rewrite Hw). exact IS.
      * destruct (scan Punct s) as [t ts]; cbn [fst snd] in *. exact IP.
    + destruct (uc_isspace c) eqn:Hsp.
      * destruct (scan Space s) as [t ts]; cbn [fst snd] in *. exact IS.
      * destruct (scan Punct s) as [t ts]; cbn [fst snd] in *.
        rewrite filter_cons_False by (cbn; by rewrite Hw). exact IP.
Qed.

(** X5.  When no character of the sentence is both a word character and
    whitespace, the words the review walks through are the word tokens of
    the tokenizer the pipeline uses, in the same order. *)
Theorem split_sentence_into_words_tokens (sentence : str) :
  Forall (λ c, is_word c = true → uc_isspace c = false) sentence →
  split_sentence_into_words sentence =
    filter (λ t, is_word_at (head t) = true) (findall_tokens sentence).
Proof.
  intros Hd. destruct sentence as [|c s]; [reflexivity|].
  pose proof (scan_word_runs s (Forall_inv_tail Hd)) as H.
  pose proof (Forall_inv Hd) as Hc. cbn beta in Hc.
  unfold split_sentence_into_words in *.
  cbn [findall_tokens word_runs]. unfold first_alt.
  destruct (is_word c) eqn:Hw.
  - destruct (H Word) as [H1 H2].
    destruct (word_runs s) as [w ws]. destruct (scan Word s) as [t ts].
    cbn [fst snd] in *.
    rewrite filter_cons_True by (cbn; by rewrite Hw). by subst.
  - destruct (uc_isspace c).
    + specialize (H Space). cbn beta iota in H.
      destruct (word_runs s) as [w ws]. destruct (scan Space s) as [t ts].
      cbn [fst snd] in *.
      rewrite filter_cons_False by (cbn; by rewrite Hw). by rewrite H.
    + specialize (H Punct). cbn beta iota in H.
      destruct (word_runs s) as [w ws]. destruct (scan Punct s) as [t ts].
      cbn [fst snd] in *.
      rewrite filter_cons_False by (cbn; by rewrite Hw). by rewrite H.
Qed.

End WordFacts.

Lemma split_sentence_into_words_tokens_witness :
  split_sentence_into_words (asc "Cats, dogs!") =
    filter (λ t, is_word_at (head t) = true) (findall_tokens (asc "Cats, dogs!")).
Proof.
  apply (split_sentence_into_words_tokens (asc "Cats, dogs!")).
  repeat (constructor;
          [intros H; vm_compute in H; first [discriminate H | vm_compute; reflexivity]|]).
  constructor.
Defined.

(** ** [highlight_selected_word] *)

Section HighlightFacts.
Context {U : UnicodeData}.

Lemma last_or_None (l : str) : last_or None l = last l.
Proof. unfold last_or. by destruct (last l). Qed.

(** Once the limit of [count] is reached the rest of the text is copied. *)
Lemma sub_scan_limit_reached (ignorecase : bool) (pat : str)
    (repl : str → result (option str)) (s : str) :
  ∀ k prev, sub_scan ignorecase pat repl k (Some 0%nat) prev s = Ok (drop k s).
Proof.
  induction s as [|c s IH]; intros k prev.
  - cbn. by destruct k.
  - destruct k as [|k]; [reflexivity|]. cbn [sub_scan drop]. apply IH.
Qed.

(** Without [re.IGNORECASE] the text matched is the pattern itself. *)
Lemma case_sensitive_match (pat m : str) :
  Forall2 (λ p c, char_match false p c = true) pat m → m = pat.
Proof.
  induction 1 as [|p c pat m Hpc _ IH]; [reflexivity|].
  cbn in Hpc. apply N.eqb_eq in Hpc. by subst.
Qed.

Lemma case_sensitive_occurrence (w : str) :
  Forall2 (λ p c, char_match false p c = true) w w.
Proof. induction w; constructor; [cbn; apply N.eqb_refl | done]. Qed.

Lemma word_match_literal (ignorecase : bool) (pat : str) (prev : option char)
    (s m : str) :
  word_match ignorecase pat prev s = Some m →
  ∃ rest, s = m ++ rest ∧
    Forall2 (λ p c, char_match ignorecase p c = true) pat m.
Proof.
  unfold word_match.
  destruct (match_literal ignorecase pat s) as [[x rest]|] eqn:Hs; [|done].
  cbn. destruct (_ && _); [|done]. intros [= ->].
  destruct (match_literal_inv _ _ _ _ _ Hs) as [-> HF]. by exists rest.
Qed.

(** [re.sub] with [count=1]: the leftmost match is replaced, and only
    that one. *)
Lemma sub_scan_first_match (pat : str) (repl : str → result (option str))
    (s : str) :
  pat ≠ [] →
  ∀ prev,
    matches_somewhere false pat prev s = true →
    ∃ pre post, s = pre ++ pat ++ post ∧
      sub_scan false pat repl 0 (Some 1%nat) prev s =
        (r ← repl pat; Ok (pre ++ joined r ++ post)) ∧
      ∀ pre1 pre2, pre = pre1 ++ pre2 → pre2 ≠ [] →
        word_match false pat (last_or prev pre1) (pre2 ++ pat ++ post) = None.
Proof.
  intros Hne. induction s as [|c s IH]; intros prev H.
  - cbn in H. rewrite (bool_decide_eq_false_2 (pat = [])) in H by exact Hne.
    discriminate H.
  - cbn [matches_somewhere] in H. cbn [sub_scan limit_reached].
    destruct (word_match false pat prev (c :: s)) as [m|] eqn:Hm.
    + destruct (word_match_literal _ _ _ _ _ Hm) as (rest & Hs & HF).
      apply case_sensitive_match in HF. subst m.
      destruct pat as [|p pat']; [done|].
      cbn [limit_pred pred length]. rewrite sub_scan_limit_reached.
      injection Hs as -> ->. rewrite drop_app_length.
      exists [], rest. split; [reflexivity|]. split.
      * destruct (repl (p :: pat')); [|reflexivity].
        by rewrite !result_bind_ok.
      * intros pre1 pre2 Hpre Hpre2. symmetry in Hpre.
        apply app_eq_nil in Hpre as [_ ->]. done.
    + rewrite (bool_decide_eq_false_2 (is_Some None)) in H
        by (intros [? ?]; discriminate).
      cbn [orb] in H.
      destruct (IH (Some c) H) as (pre & post & Hs & Hsub & Hfirst).
      exists (c :: pre), post. split; [by rewrite Hs|]. split.
      * rewrite Hsub. destruct (repl pat); [|reflexivity].
        by rewrite !result_bind_ok.
      * intros pre1 pre2 Hpre Hpre2. destruct pre1 as [|d pre1].
        -- cbn in Hpre. subst pre2. unfold last_or. cbn [last app].
           by rewrite <- Hs.
        -- injection Hpre as <- Hpre. rewrite last_or_cons.
           by apply Hfirst.
Qed.

(** A word that stands between characters that are not word characters
    is matched by [\b<word>\b]. *)
Lemma occurrence_matches_somewhere (w pre post : str) (prev : option char) :
  w ≠ [] → Forall (λ c, is_word c = true) w →
  is_word_at (last_or prev pre) = false →
  is_word_at (head post) = false →
  matches_somewhere false w prev (pre ++ w ++ post) = true.
Proof.
  intros Hne Hw Hpre Hpost. revert prev Hpre.
  induction pre as [|c pre IH]; intros prev Hpre.
  - assert (Hm : word_match false w prev (w ++ post) = Some w).
    { apply word_match_at_occurrence;
        [exact Hne | | apply case_sensitive_occurrence | exact Hpost | exact Hpre].
      intros p c Hp Hpc. cbn in Hpc. apply N.eqb_eq in Hpc. subst c.
      rewrite Forall_forall in Hw. by apply Hw. }
    destruct w as [|w0 w']; [done|].
    cbn [app matches_somewhere]. cbn [app] in Hm. rewrite Hm.
    by rewrite bool_decide_eq_true_2.
  - cbn [app matches_somewhere]. rewrite last_or_cons in Hpre.
    rewrite (IH (Some c) Hpre). apply orb_true_r.
Qed.

(** Every word of a sentence is matched somewhere in it. *)
Lemma words_match_somewhere (sentence w : str) (i : nat) :
  split_sentence_into_words sentence !! i = Some w →
  w ≠ [] ∧ matches_somewhere false w None sentence = true.
Proof.
  intros Hi.
  pose proof (words_are_occurrences sentence) as H.
  rewrite Forall_forall in H.
  destruct (H w (list_elem_of_lookup_2 _ _ _ Hi))
    as (Hne & Hw & pre & post & -> & Hpre & Hpost).
  split; [exact Hne|].
  apply occurrence_matches_somewhere; [exact Hne | exact Hw | | exact Hpost].
  by rewrite last_or_None.
Qed.


(** X7.  Whatever word of the sentence the cursor is on, the sentence
    displayed is the sentence with one occurrence of that word between
    [>] and [<]. *)
Theorem selected_word_is_highlighted (sentence w : str) (i : nat) :
  split_sentence_into_words sentence !! i = Some w →
  ∃ pre post, sentence = pre ++ w ++ post ∧
    highlight_selected_word sentence w =
      Ok (pre ++ asc ">" ++ w ++ asc "<" ++ post).
Proof.
  intros Hi. destruct (words_match_somewhere _ _ _ Hi) as [Hne Hm].
  unfold highlight_selected_word, re_sub.
  destruct (sub_scan_first_match w
              (λ m, Ok (Some (asc ">" ++ m ++ asc "<"))) sentence Hne None Hm)
    as (pre & post & Hs & Hsub & _).
  exists pre, post. split; [exact Hs|].
  rewrite Hsub, result_bind_ok. cbv [joined default from_option id].
  by rewrite <- !app_assoc.
Qed.

End HighlightFacts.


Lemma selected_word_is_highlighted_witness :
  split_sentence_into_words (asc "a cat, a dog") !! 2%nat = Some (asc "a") ∧
  ∃ pre post, asc "a cat, a dog" = pre ++ asc "a" ++ post ∧
    highlight_selected_word (asc "a cat, a dog") (asc "a") =
      Ok (pre ++ asc ">" ++ asc "a" ++ asc "<" ++ post).
Proof.
  split; [vm_compute; reflexivity|].
  apply (selected_word_is_highlighted (asc "a cat, a dog") (asc "a") 2).
  vm_compute; reflexivity.
Defined.

(** ** [replace_word_in_sentence] and [replace_word_in_all_sentences] *)

Section ReplaceFacts.
Context {U : UnicodeData}.

Lemma replace_word_in_all_sentences_length (l : list str) (w : str)
    (r : option str) :
  length (replace_word_in_all_sentences l w r).1 = length l.
Proof.
  induction l as [|x l IH]; [reflexivity|]. cbn [replace_word_in_all_sentences].
  destruct (replace_word_in_sentence x w r); [|reflexivity].
  destruct (replace_word_in_all_sentences l w r) as [l' e].
  cbn [fst length] in *. by rewrite IH.
Qed.

(** A sentence in which the word stands nowhere as a whole word, case
    ignored, is returned as it is, whatever the replacement. *)
Lemma replace_word_in_sentence_no_match (sentence w : str) (r : option str) :
  matches_somewhere true w None sentence = false →
  replace_word_in_sentence sentence w r = Ok sentence.
Proof. intros H. by apply sub_scan_no_match. Qed.

(** X8.  [replace_word_in_all_sentences] rewrites the list from its first
    sentence on and stops at the first sentence whose replacement raises:
    the sentences before it are already rewritten, that sentence and the
    ones after it are as they were; the list never changes length. *)
Theorem replace_word_in_all_sentences_stops_at_first_error
    (l : list str) (w : str) (r : option str) :
  length (replace_word_in_all_sentences l w r).1 = length l ∧
  match replace_word_in_all_sentences l w r with
  | (l', None) =>
      Forall2 (λ x x', replace_word_in_sentence x w r = Ok x') l l'
  | (l', Some e) =>
      ∃ before before' x rest,
        l = before ++ x :: rest ∧ l' = before' ++ x :: rest ∧
        Forall2 (λ x x', replace_word_in_sentence x w r = Ok x') before before' ∧
        replace_word_in_sentence x w r = Raise e
  end.
Proof.
  split; [apply replace_word_in_all_sentences_length|].
  induction l as [|x l IH]; [constructor|]. cbn [replace_word_in_all_sentences].
  destruct (replace_word_in_sentence x w r) as [x'|e] eqn:Hx.
  - destruct (replace_word_in_all_sentences l w r) as [l' [e|]].
    + destruct IH as (before & before' & y & rest & -> & -> & HF & Hy).
      exists (x :: before), (x' :: before'), y, rest.
      repeat split; [by constructor | exact Hy].
    + by constructor.
  - exists [], [], x, l. repeat split; [constructor | exact Hx].
Qed.

(** X9.  When the word stands in no sentence as a whole word, case
    ignored, the list comes back as it was and nothing raises, even with
    a null replacement. *)
Theorem replace_word_in_all_sentences_without_occurrence
    (l : list str) (w : str) (r : option str) :
  Forall (λ x, matches_somewhere true w None x = false) l →
  replace_word_in_all_sentences l w r = (l, None).
Proof.
  induction 1 as [|x l Hx _ IH]; [reflexivity|].
  cbn [replace_word_in_all_sentences].
  by rewrite (replace_word_in_sentence_no_match x w r Hx), IH.
Qed.

End ReplaceFacts.

Lemma replace_word_in_all_sentences_without_occurrence_witness :
  Forall (λ x, matches_somewhere true (asc "cat") None x = false)
         [asc "A dog."; asc "Two cats, one catalog."] ∧
  replace_word_in_all_sentences
    [asc "A dog."; asc "Two cats, one catalog."] (asc "cat") None =
    ([asc "A dog."; asc "Two cats, one catalog."], None).
Proof.
  split.
  - repeat (constructor; [vm_compute; reflexivity|]). constructor.
  - apply (replace_word_in_all_sentences_without_occurrence
             [asc "A dog."; asc "Two cats, one catalog."] (asc "cat") None).
    repeat (constructor; [vm_compute; reflexivity|]). constructor.
Defined.

(** ** The review loop as a whole *)

Section LoopFacts.
Context {U : UnicodeData}.

Lemma py_index_ok_lt {A} (l : list A) (i : Z) (x : A) :
  py_index l i = Ok x → (i < len l)%Z.
Proof.
  unfold py_index, len.
  destruct (i <? 0)%Z eqn:Hi; [apply Z.ltb_lt in Hi; lia|].
  destruct (_ && _) eqn:Hr; [|done]. intros _.
  apply andb_true_iff in Hr as [_ Hr]. by apply Z.ltb_lt in Hr.
Qed.

Lemma py_setitem_ok {A} (l l' : list A) (i : Z) (x : A) :
  py_setitem l i x = Ok l' → length l' = length l ∧ (i < len l)%Z.
Proof.
  unfold py_setitem, len.
  destruct (_ && _) eqn:Hr; [|done]. intros [= <-].
  split; [apply length_insert|].
  apply andb_true_iff in Hr as [_ Hr]. apply Z.ltb_lt in Hr.
  destruct (i <? 0)%Z eqn:Hi; [apply Z.ltb_lt in Hi; lia | exact Hr].
Qed.

Lemma py_setitem_stored {A} (l : list A) (i : Z) (x : A) :
  py_index l i = Ok x → py_setitem l i x = Ok l.
Proof.
  unfold py_index, py_setitem.
  destruct (_ && _); [|done].
  destruct (l !! _) as [y|] eqn:Hy; [|done].
  intros [= ->]. by rewrite list_insert_id.
Qed.

Lemma py_setitem_out {A} (l : list A) (i : Z) (x : A) :
  (len l <= i)%Z → py_setitem l i x = Raise IndexError.
Proof.
  unfold py_setitem, len. intros Hi.
  replace (i <? 0)%Z with false by (symmetry; apply Z.ltb_ge; lia).
  replace (i <? Z.of_nat (length l))%Z with false by (symmetry; apply Z.ltb_ge; lia).
  by rewrite andb_false_r.
Qed.

Lemma next_word_or_sentence_spec (s : Session) :
  coherent s →
  match next_word_or_sentence s with
  | Ok s' => coherent s' ∧ sentences s' = sentences s ∧ printed s' = printed s
  | Raise _ => True
  end.
Proof.
  intros [Hw Hs]. unfold next_word_or_sentence.
  cbn [with_word_index with_sentence_index words selected_word_index
       current_sentence_index sentences].
  destruct (len (words s) <=? selected_word_index s + 1)%Z.
  - destruct (current_sentence_index s + 1 <? len (sentences s))%Z eqn:Hlt.
    + destruct (py_index (sentences s) (current_sentence_index s + 1)) as [sen|e] eqn:Hsen;
        [|done]. rewrite result_bind_ok.
      repeat split. intros _. exact Hsen.
    + apply Z.ltb_ge in Hlt. repeat split; [exact Hw|].
      cbn [with_word_index with_sentence_index words selected_word_index
       current_sentence_index sentences]. intros; lia.
  - repeat split; [exact Hw | exact Hs].
Qed.

Ltac session_cbn :=
  cbn [step_post session_of with_sentences with_sentence with_word_index
       with_sentence_index with_dictionary say printing sentences
       current_sentence_index sentence words selected_word_index printed
       pi_dictionary try_ head from_option browsing].

Ltac session_cbn_in H :=
  cbn [step_post session_of with_sentences with_sentence with_word_index
       with_sentence_index with_dictionary say printing sentences
       current_sentence_index sentence words selected_word_index printed
       pi_dictionary try_ head from_option browsing] in H.

Lemma replace_and_refresh_spec (w : str) (r : option str) (message : str)
    (s : Session) (k : Session → step_result)
    (P : Session → list event → Prop) (Q : outcome → Prop) :
  (∀ e s', length (sentences s') = length (sentences s) → Q (Raised e s')) →
  (∀ s', coherent s' → length (sentences s') = length (sentences s) →
         current_sentence_index s' = current_sentence_index s →
         selected_word_index s' = selected_word_index s →
         step_post P Q (k s')) →
  step_post P Q (replace_and_refresh w r message s k).
Proof.
  intros HQ Hk. unfold replace_and_refresh.
  pose proof (replace_word_in_all_sentences_length (sentences s) w r) as Hlen.
  destruct (replace_word_in_all_sentences (sentences s) w r) as [l [e|]];
    cbn [fst] in Hlen.
  - apply HQ. exact Hlen.
  - session_cbn.
    destruct (py_index l (current_sentence_index s)) as [sen|e] eqn:Hsen;
      session_cbn.
    + apply Hk; [|exact Hlen|reflexivity|reflexivity].
      split; [reflexivity|]. intros _. exact Hsen.
    + apply HQ. exact Hlen.
Qed.

Lemma action_with_entry_Some (key : string) (user_action : str)
    (pi_entry : option Entry) (e : Entry) :
  action_with_entry key user_action pi_entry = Some e →
  user_action = asc key.
Proof.
  unfold action_with_entry. case_bool_decide; [done|discriminate].
Qed.

Lemma dispatch_spec (variation w : str) (pi_entry : option Entry)
    (s : Session) (script : list event) :
  coherent s →
  step_post
    (λ s' script',
       coherent s' ∧ (∃ used, script = used ++ script') ∧
       length (sentences s') = length (sentences s) ∧
       (from_option browsing True (head script) → sentences s' = sentences s))
    (λ o,
       length (sentences (session_of o)) = length (sentences s) ∧
       (from_option browsing True (head script) →
        sentences (session_of o) = sentences s) ∧
       match o with
       | Returned s' =>
           last (printed s') = Some (asc "Exiting interactive transcription.")
       | OutOfFuel _ => False
       | _ => True
       end)
    (dispatch variation w pi_entry s script).
Proof.
  intros Hco. pose proof Hco as [Hw Hs].
  destruct script as [|[line|d] script]; [by session_cbn | | by session_cbn].
  cbn [dispatch]. cbv zeta.
  destruct (action_with_entry "a" (lower line) pi_entry) as [entry|] eqn:Ha.
  { apply action_with_entry_Some in Ha.
    destruct (PI entry !! variation) as [pi_word|]; [|by session_cbn].
    apply replace_and_refresh_spec.
    - intros e s' Hlen. session_cbn.
      split; [exact Hlen|]. split; [by intros [? _] | exact I].
    - intros s' Hco' Hlen _ _.
      pose proof (next_word_or_sentence_spec s' Hco') as Hn.
      destruct (next_word_or_sentence s') as [s''|e]; session_cbn.
      + destruct Hn as (Hco'' & Hsen & _).
        split; [exact Hco''|]. split; [by exists [Typed line]|].
        split; [by rewrite Hsen | by intros [? _]].
      + split; [exact Hlen|]. split; [by intros [? _] | exact I]. }
  clear Ha.
  destruct (bool_decide (lower line = asc "n") || bool_decide (lower line = [])).
  { pose proof (next_word_or_sentence_spec s Hco) as Hn.
    destruct (next_word_or_sentence s) as [s'|e]; session_cbn; [|done].
    destruct Hn as (Hco' & Hsen & _).
    split; [exact Hco'|]. split; [by exists [Typed line]|].
    by rewrite Hsen. }
  destruct (bool_decide (lower line = asc "p")).
  { destruct (0 <? selected_word_index s)%Z.
    - session_cbn. split; [done|]. split; [by exists [Typed line]|]. done.
    - destruct (0 <? current_sentence_index s)%Z.
      + session_cbn.
        destruct (py_index (sentences s) (current_sentence_index s - 1))
          as [sen|e] eqn:Hsen; session_cbn; [|done].
        split; [|split; [by exists [Typed line]|done]].
        split; [reflexivity|]. intros _. exact Hsen.
      + session_cbn. split; [done|]. split; [by exists [Typed line]|]. done. }
  destruct (bool_decide (lower line = asc "e")).
  { destruct script as [|[l2|d] script]; [by session_cbn | by session_cbn |].
    session_cbn. split; [done|]. split; [by exists [Typed line; Reloaded d]|].
    done. }
  destruct (action_with_entry "c" (lower line) pi_entry) as [entry|] eqn:Hc.
  { apply action_with_entry_Some in Hc.
    destruct (PI entry !! variation) as [pi_word|]; [|by session_cbn].
    destruct script as [|[answer|d] script]; [by session_cbn | | by session_cbn].
    apply replace_and_refresh_spec.
    - intros e s' Hlen. session_cbn.
      split; [exact Hlen|]. split; [by intros [_ ?] | exact I].
    - intros s' Hco' Hlen _ _. session_cbn.
      split; [exact Hco'|]. split; [by exists [Typed line; Typed answer]|].
      split; [exact Hlen | by intros [_ ?]]. }
  clear Hc.
  destruct (bool_decide (lower line = asc "s")).
  { session_cbn.
    destruct (current_sentence_index s + 1 <? len (sentences s))%Z eqn:Hlt.
    - destruct (py_index (sentences s) (current_sentence_index s + 1))
        as [sen|e] eqn:Hsen; session_cbn; [|done].
      split; [|split; [by exists [Typed line]|done]].
      split; [reflexivity|]. intros _. exact Hsen.
    - apply Z.ltb_ge in Hlt. session_cbn.
      split; [|split; [by exists [Typed line]|done]].
      split; [exact Hw|]. session_cbn. intros; lia. }
  destruct (bool_decide (lower line = asc "q")).
  { session_cbn. split; [done|]. split; [done|]. apply last_snoc. }
  session_cbn. split; [done|]. split; [by exists [Typed line]|]. done.
Qed.

Lemma review_step_spec (variation : str) (s : Session) (script : list event) :
  coherent s →
  step_post
    (λ s' script',
       coherent s' ∧ (∃ used, script = used ++ script') ∧
       length (sentences s') = length (sentences s) ∧
       (from_option browsing True (head script) → sentences s' = sentences s))
    (λ o,
       length (sentences (session_of o)) = length (sentences s) ∧
       (from_option browsing True (head script) →
        sentences (session_of o) = sentences s) ∧
       match o with
       | Returned s' =>
           last (printed s') = Some (asc "Exiting interactive transcription.")
       | OutOfFuel _ => False
       | _ => True
       end)
    (review_step variation s script).
Proof.
  intros Hco. unfold review_step.
  destruct (py_index (words s) (selected_word_index s)) as [w|e];
    [|by session_cbn]. session_cbn.
  destruct (highlight_selected_word (sentence s) w) as [display|e];
    [|by session_cbn]. session_cbn.
  unfold show_entry.
  destruct (get_entry (pi_dictionary s) (lower w)) as [entry|].
  - destruct (PI entry !! variation) as [v|]; [|by session_cbn].
    apply (dispatch_spec variation w (Some entry)
             (say (variation ++ asc " word: " ++ fmt v)
                (say (asc "PI Entry: " ++ whole entry) (say display s)))).
    exact Hco.
  - apply (dispatch_spec variation w None
             (say [] (say (asc "No PI entry found for this word.") (say display s)))).
    exact Hco.
Qed.

Lemma run_spec (variation : str) (fuel : nat) :
  ∀ head s script,
    (head = InnerLoop → coherent s) →
    length (sentences (session_of (run fuel variation head s script)))
      = length (sentences s) ∧
    (Forall browsing script →
     sentences (session_of (run fuel variation head s script)) = sentences s) ∧
    (∀ s', run fuel variation head s script = Returned s' →
       (head = OuterLoop →
        (current_sentence_index s < len (sentences s))%Z) →
       last (printed s') = Some (asc "Exiting interactive transcription.")).
Proof.
  induction fuel as [|fuel IH]; intros head s script Hco; [by cbn|].
  cbn [run]. destruct head.
  - destruct (current_sentence_index s <? len (sentences s))%Z eqn:Hlt.
    + destruct (py_index (sentences s) (current_sentence_index s))
        as [sen|e] eqn:Hsen; [|by cbn].
      destruct (IH InnerLoop (with_word_index 0 (with_sentence sen s)) script)
        as (H1 & H2 & H3).
      { intros _. split; [reflexivity|]. intros _. exact Hsen. }
      split; [exact H1|]. split; [exact H2|].
      intros s' Hs' _. by apply H3.
    + apply Z.ltb_ge in Hlt. cbn. split; [done|]. split; [done|].
      intros s' _ Hin. specialize (Hin eq_refl). lia.
  - specialize (Hco eq_refl).
    destruct (selected_word_index s <? len (words s))%Z.
    + pose proof (review_step_spec variation s script Hco) as Hstep.
      destruct (review_step variation s script) as [s1 script1|o];
        cbn [step_post] in Hstep.
      * destruct Hstep as (Hco1 & [used Hused] & Hlen & Hsame).
        destruct (IH InnerLoop s1 script1 (λ _, Hco1)) as (H1 & H2 & H3).
        split; [by rewrite H1|]. split.
        -- intros Hb. rewrite H2.
           ++ apply Hsame. destruct script as [|ev script]; [exact I|].
              exact (Forall_inv Hb).
           ++ rewrite Hused in Hb. by apply Forall_app in Hb as [_ ?].
        -- intros s' Hs' _. by apply H3.
      * destruct Hstep as (Hlen & Hsame & Hret).
        split; [exact Hlen|]. split.
        -- intros Hb. apply Hsame. destruct script as [|ev script]; [exact I|].
           exact (Forall_inv Hb).
        -- intros s' -> _. exact Hret.
    + destruct Hco as [Hw Hs].
      destruct (decide (current_sentence_index s < len (sentences s))%Z) as [Hlt|Hge].
      * rewrite (py_setitem_stored _ _ _ (Hs Hlt)).
        destruct (IH OuterLoop (with_sentences (sentences s) s) script)
          as (H1 & H2 & H3); [discriminate|].
        split; [exact H1|]. split; [exact H2|].
        intros s' Hs' _. apply H3; [exact Hs' | intros _; exact Hlt].
      * rewrite py_setitem_out by lia. by cbn.
Qed.

(** X10.  Called with a sentence index below [len(sentences)], the
    review returns only through the answer [q]: it never returns by
    coming to the end of the sentences. *)
Theorem review_returns_only_on_quit (fuel : nat) (d : Dictionary)
    (l : list str) (csi : Z) (variation : str) (script : list event)
    (s' : Session) :
  (csi < len l)%Z →
  process_sentence_interactively fuel d l csi variation script = Returned s' →
  last (printed s') = Some (asc "Exiting interactive transcription.").
Proof.
  intros Hcsi Hret. unfold process_sentence_interactively in Hret.
  destruct (run_spec variation fuel OuterLoop (start d l csi) script)
    as (_ & _ & H); [discriminate|].
  apply (H s' Hret). intros _. exact Hcsi.
Qed.

(** X11.  However the review ends, the list holds as many sentences as it
    did at the call. *)
Theorem review_keeps_number_of_sentences (fuel : nat) (d : Dictionary)
    (l : list str) (csi : Z) (variation : str) (script : list event) :
  length (sentences (session_of
            (process_sentence_interactively fuel d l csi variation script)))
    = length l.
Proof.
  unfold process_sentence_interactively.
  destruct (run_spec variation fuel OuterLoop (start d l csi) script)
    as (H & _ & _); [discriminate|]. exact H.
Qed.

(** X12.  As long as the user answers neither [a] nor [c], the list of
    sentences is left as it was: the assignment that ends the inner loop
    stores back what the list already holds. *)
Theorem browsing_keeps_sentences (fuel : nat) (d : Dictionary)
    (l : list str) (csi : Z) (variation : str) (script : list event) :
  Forall browsing script →
  sentences (session_of
     (process_sentence_interactively fuel d l csi variation script)) = l.
Proof.
  intros Hb. unfold process_sentence_interactively.
  destruct (run_spec variation fuel OuterLoop (start d l csi) script)
    as (_ & H & _); [discriminate|]. exact (H Hb).
Qed.

(** X13.  The locals stay in step with the list: if [words] are the words
    of [sentence] and [sentence] is the element of the list at the
    sentence index, the same holds after any pass through the loop body;
    so the assignment [sentences[current_sentence_index] = sentence]
    leaves the list as it is when the index is in range, and raises
    [IndexError] when it is not. *)
Theorem write_back_changes_nothing (variation : str) (s : Session)
    (script : list event) :
  coherent s →
  (∀ s' script', review_step variation s script = Continue s' script' →
                 coherent s') ∧
  py_setitem (sentences s) (current_sentence_index s) (sentence s) =
    if (current_sentence_index s <? len (sentences s))%Z
    then Ok (sentences s) else Raise IndexError.
Proof.
  intros Hco. split.
  - intros s' script' Hstep.
    pose proof (review_step_spec variation s script Hco) as H.
    rewrite Hstep in H. exact (proj1 H).
  - destruct Hco as [_ Hs].
    destruct (current_sentence_index s <? len (sentences s))%Z eqn:Hlt.
    + apply Z.ltb_lt in Hlt. apply py_setitem_stored, Hs, Hlt.
    + apply Z.ltb_ge in Hlt. by apply py_setitem_out.
Qed.

(** X14.  A sentence without a word character stops the review for
    good: the inner loop has nothing to go through, the sentence index
    stays where it is, and the outer loop takes the same sentence again,
    without printing and without reading an answer.  Whatever the fuel,
    the run is still going when the fuel is spent. *)
Theorem wordless_sentence_spins (fuel : nat) (d : Dictionary)
    (l : list str) (csi : Z) (variation sen : str) (script : list event) :
  py_index l csi = Ok sen →
  split_sentence_into_words sen = [] →
  ∃ s', process_sentence_interactively fuel d l csi variation script
          = OutOfFuel s' ∧
        sentences s' = l ∧ current_sentence_index s' = csi ∧
        printed s' = [].
Proof.
  intros Hsen Hwords. unfold process_sentence_interactively.
  assert (H : ∀ head s,
             sentences s = l → current_sentence_index s = csi →
             printed s = [] →
             (head = InnerLoop →
              words s = [] ∧ sentence s = sen ∧ selected_word_index s = 0%Z) →
             ∃ s', run fuel variation head s script = OutOfFuel s' ∧
                   sentences s' = l ∧ current_sentence_index s' = csi ∧
                   printed s' = []).
  { induction fuel as [|fuel IH]; intros head s Hl Hc Hp Hin.
    - exists s. by cbn.
    - cbn [run]. destruct head.
      + rewrite Hl, Hc.
        replace (csi <? len l)%Z with true
          by (symmetry; apply Z.ltb_lt; by apply (py_index_ok_lt _ _ sen)).
        rewrite Hsen. apply IH; session_cbn; done.
      + destruct (Hin eq_refl) as (Hw & Hs & Hi).
        rewrite Hw, Hi, Hl, Hc, Hs. cbn [len length Z.of_nat Z.ltb Z.compare].
        rewrite (py_setitem_stored _ _ _ Hsen).
        apply IH; session_cbn; done. }
  apply H; try done.
Qed.

(** The branch of [s]. *)
Lemma dispatch_skip (variation w : str) (pi_entry : option Entry)
    (s : Session) (line : str) (script : list event) :
  lower line = asc "s" →
  dispatch variation w pi_entry s (Typed line :: script) =
    let s := with_sentence_index (current_sentence_index s + 1) s in
    if (current_sentence_index s <? len (sentences s))%Z then
      try_ (py_index (sentences s) (current_sentence_index s)) s (λ sen,
      Continue (with_word_index 0 (with_sentence sen s)) script)
    else Continue s script.
Proof.
  intros Hline. unfold dispatch, action_with_entry. cbv zeta.
  rewrite Hline.
  rewrite (bool_decide_eq_false_2 (asc "s" = asc "a")) by discriminate.
  rewrite (bool_decide_eq_false_2 (asc "s" = asc "n")) by discriminate.
  rewrite (bool_decide_eq_false_2 (asc "s" = [])) by discriminate.
  rewrite (bool_decide_eq_false_2 (asc "s" = asc "p")) by discriminate.
  rewrite (bool_decide_eq_false_2 (asc "s" = asc "e")) by discriminate.
  rewrite (bool_decide_eq_false_2 (asc "s" = asc "c")) by discriminate.
  by rewrite (bool_decide_eq_true_2 (asc "s" = asc "s")).
Qed.

(** The branch of [p]. *)
Lemma dispatch_previous (variation w : str) (pi_entry : option Entry)
    (s : Session) (line : str) (script : list event) :
  lower line = asc "p" →
  dispatch variation w pi_entry s (Typed line :: script) =
    if (0 <? selected_word_index s)%Z then
      Continue (with_word_index (selected_word_index s - 1) s) script
    else if (0 <? current_sentence_index s)%Z then
      let s := with_sentence_index (current_sentence_index s - 1) s in
      try_ (py_index (sentences s) (current_sentence_index s)) s (λ sen,
      let s := with_sentence sen s in
      Continue (with_word_index (len (words s) - 1) s) script)
    else Continue s script.
Proof.
  intros Hline. unfold dispatch, action_with_entry. cbv zeta.
  rewrite Hline.
  rewrite (bool_decide_eq_false_2 (asc "p" = asc "a")) by discriminate.
  rewrite (bool_decide_eq_false_2 (asc "p" = asc "n")) by discriminate.
  rewrite (bool_decide_eq_false_2 (asc "p" = [])) by discriminate.
  by rewrite (bool_decide_eq_true_2 (asc "p" = asc "p")).
Qed.

(** X15.  On the last sentence the answer [s] moves the sentence index to
    [len(sentences)] and nothing else: the inner loop goes on with the
    same sentence, the same words and the same word index, and prompts
    for the same word again. *)
Theorem skip_at_last_sentence_keeps_prompting (fuel : nat) (variation : str)
    (s : Session) (w line : str) (script : list event) :
  current_sentence_index s = (len (sentences s) - 1)%Z →
  (selected_word_index s < len (words s))%Z →
  py_index (words s) (selected_word_index s) = Ok w →
  (∀ e, get_entry (pi_dictionary s) (lower w) = Some e →
        is_Some (PI e !! variation)) →
  lower line = asc "s" →
  ∃ lines,
    run (S fuel) variation InnerLoop s (Typed line :: script) =
    run fuel variation InnerLoop
      (with_sentence_index (len (sentences s)) (printing lines s)) script.
Proof.
  intros Hcsi Hlt Hw He Hline. cbn [run].
  replace (selected_word_index s <? len (words s))%Z with true
    by (symmetry; apply Z.ltb_lt; lia).
  destruct (review_step_prompt variation s w (Typed line :: script) Hw He)
    as [lines ->].
  exists lines. rewrite dispatch_skip by exact Hline. cbv zeta. session_cbn.
  replace (current_sentence_index s + 1 <? len (sentences s))%Z with false
    by (symmetry; apply Z.ltb_ge; lia).
  by replace (current_sentence_index s + 1)%Z with (len (sentences s)) by lia.
Qed.

(** X16.  From a word that is not the last one of the last sentence, the
    answer [n] followed by the answer [p] brings the cursor back: the
    same sentence index, sentence, words and word index, also when [n]
    went over to the next sentence. *)
Theorem next_then_previous_returns (variation : str) (s : Session)
    (line_n line_p : str) (script : list event) :
  coherent s →
  (0 <= current_sentence_index s)%Z →
  (0 <= selected_word_index s < len (words s))%Z →
  (∀ x e, get_entry (pi_dictionary s) x = Some e →
          is_Some (PI e !! variation)) →
  (selected_word_index s + 1 < len (words s))%Z ∨
  (∃ sen, py_index (sentences s) (current_sentence_index s + 1) = Ok sen ∧
          split_sentence_into_words sen ≠ []) →
  lower line_n = asc "n" ∨ lower line_n = [] →
  lower line_p = asc "p" →
  ∃ s1 s2,
    review_step variation s (Typed line_n :: Typed line_p :: script)
      = Continue s1 (Typed line_p :: script) ∧
    review_step variation s1 (Typed line_p :: script) = Continue s2 script ∧
    sentences s2 = sentences s ∧
    current_sentence_index s2 = current_sentence_index s ∧
    sentence s2 = sentence s ∧ words s2 = words s ∧
    selected_word_index s2 = selected_word_index s.
Proof.
  intros [Hwords Hsen] Hcsi Hidx He Hnext Hn Hp.
  destruct (py_index_in_range (words s) (selected_word_index s) Hidx)
    as (w & Hw & _).
  destruct (review_step_prompt variation s w
              (Typed line_n :: Typed line_p :: script) Hw (He _))
    as [lines1 Hstep1].
  rewrite dispatch_next in Hstep1 by exact Hn.
  unfold next_word_or_sentence in Hstep1. session_cbn_in Hstep1.
  destruct (len (words s) <=? selected_word_index s + 1)%Z eqn:Hend.
  - apply Z.leb_le in Hend.
    destruct Hnext as [Hnext | (sen2 & Hsen2 & Hwords2)]; [lia|].
    pose proof (py_index_ok_lt _ _ _ Hsen2) as Hlt.
    replace (current_sentence_index s + 1 <? len (sentences s))%Z with true
      in Hstep1 by (symmetry; apply Z.ltb_lt; lia).
    rewrite Hsen2, result_bind_ok in Hstep1. session_cbn_in Hstep1.
    destruct (split_sentence_into_words sen2) as [|w2 ws2] eqn:Hsplit; [done|].
    match type of Hstep1 with
    | _ = Continue ?s1 ?sc =>
        destruct (review_step_prompt variation s1 w2 sc) as [lines2 Hstep2]
    end.
    { session_cbn. rewrite Hsplit. apply py_index_first. }
    { intros e. apply He. }
    rewrite dispatch_previous in Hstep2 by exact Hp.
    cbv zeta in Hstep2. session_cbn_in Hstep2.
    change (0 <? 0)%Z with false in Hstep2. cbv iota in Hstep2.
    replace (0 <? current_sentence_index s + 1)%Z with true in Hstep2
      by (symmetry; apply Z.ltb_lt; lia).
    replace (current_sentence_index s + 1 - 1)%Z
      with (current_sentence_index s) in Hstep2 by lia.
    rewrite Hsen in Hstep2 by lia. session_cbn_in Hstep2.
    eexists. eexists. split; [exact Hstep1|].
    split; [exact Hstep2|]. session_cbn.
    repeat split; [done | by rewrite <- Hwords; lia].
  - apply Z.leb_gt in Hend. session_cbn_in Hstep1.
    destruct (py_index_in_range (words s) (selected_word_index s + 1))
      as (w2 & Hw2 & _); [lia|].
    match type of Hstep1 with
    | _ = Continue ?s1 ?sc =>
        destruct (review_step_prompt variation s1 w2 sc) as [lines2 Hstep2]
    end.
    { session_cbn. exact Hw2. }
    { intros e. apply He. }
    rewrite dispatch_previous in Hstep2 by exact Hp.
    session_cbn_in Hstep2.
    replace (0 <? selected_word_index s + 1)%Z with true in Hstep2
      by (symmetry; apply Z.ltb_lt; lia).
    eexists. eexists. split; [exact Hstep1|].
    split; [exact Hstep2|]. session_cbn.
    repeat split. lia.
Qed.

End LoopFacts.

(** ** The review loop as a whole, on examples *)

Lemma review_returns_only_on_quit_witness :
  ∃ s', process_sentence_interactively 3 ∅ [asc "Hi"] 0 L1 [Typed (asc "q")]
          = Returned s' ∧
        last (printed s') = Some (asc "Exiting interactive transcription.").
Proof.
  eexists. split; [vm_compute; reflexivity|].
  apply (review_returns_only_on_quit 3 ∅ [asc "Hi"] 0 L1 [Typed (asc "q")]).
  - vm_compute. reflexivity.
  - vm_compute. reflexivity.
Defined.

Lemma browsing_keeps_sentences_witness :
  sentences (session_of
     (process_sentence_interactively 9 ∅ [asc "Hi there"; asc "Bye"] 0 L1
        [Typed (asc "n"); Typed (asc "p"); Typed (asc "s"); Typed (asc "q")]))
    = [asc "Hi there"; asc "Bye"].
Proof.
  apply (browsing_keeps_sentences 9 ∅ [asc "Hi there"; asc "Bye"] 0 L1
           [Typed (asc "n"); Typed (asc "p"); Typed (asc "s"); Typed (asc "q")]).
  repeat (constructor;
          [split; intros H; vm_compute in H; discriminate H|]).
  constructor.
Defined.

Lemma write_back_changes_nothing_witness :
  coherent (prompt_at ∅ [asc "Hi there"; asc "Bye"] 0 (asc "Hi there") 1) ∧
  (∀ s' script',
     review_step L1 (prompt_at ∅ [asc "Hi there"; asc "Bye"] 0 (asc "Hi there") 1)
       [Typed (asc "n")] = Continue s' script' →
     coherent s') ∧
  py_setitem
    (sentences (prompt_at ∅ [asc "Hi there"; asc "Bye"] 0 (asc "Hi there") 1))
    (current_sentence_index
       (prompt_at ∅ [asc "Hi there"; asc "Bye"] 0 (asc "Hi there") 1))
    (sentence (prompt_at ∅ [asc "Hi there"; asc "Bye"] 0 (asc "Hi there") 1)) =
    if (current_sentence_index
          (prompt_at ∅ [asc "Hi there"; asc "Bye"] 0 (asc "Hi there") 1) <?
        len (sentences
               (prompt_at ∅ [asc "Hi there"; asc "Bye"] 0 (asc "Hi there") 1)))%Z
    then Ok (sentences
               (prompt_at ∅ [asc "Hi there"; asc "Bye"] 0 (asc "Hi there") 1))
    else Raise IndexError.
Proof.
  assert (H : coherent
                (prompt_at ∅ [asc "Hi there"; asc "Bye"] 0 (asc "Hi there") 1)).
  { split; [vm_compute; reflexivity | intros _; vm_compute; reflexivity]. }
  split; [exact H|].
  exact (write_back_changes_nothing L1
           (prompt_at ∅ [asc "Hi there"; asc "Bye"] 0 (asc "Hi there") 1)
           [Typed (asc "n")] H).
Defined.

Lemma wordless_sentence_spins_witness :
  split_into_sentences (asc "Well. ... Yes.")
    = [asc "Well."; asc "..."; asc "Yes."] ∧
  ∃ s', process_sentence_interactively 1000 ∅
          (split_into_sentences (asc "Well. ... Yes.")) 1 L1 [Typed (asc "q")]
          = OutOfFuel s' ∧
        sentences s' = split_into_sentences (asc "Well. ... Yes.") ∧
        current_sentence_index s' = 1%Z ∧
        printed s' = [].
Proof.
  split; [vm_compute; reflexivity|].
  apply (wordless_sentence_spins 1000 ∅
           (split_into_sentences (asc "Well. ... Yes.")) 1 L1 (asc "...")
           [Typed (asc "q")]).
  - vm_compute. reflexivity.
  - vm_compute. reflexivity.
Defined.

Lemma skip_at_last_sentence_keeps_prompting_witness :
  ∃ lines,
    run 2 L1 InnerLoop (prompt_at ∅ [asc "Hi there"] 0 (asc "Hi there") 0)
        [Typed (asc "s"); Typed (asc "q")] =
    run 1 L1 InnerLoop
      (with_sentence_index
         (len (sentences (prompt_at ∅ [asc "Hi there"] 0 (asc "Hi there") 0)))
         (printing lines (prompt_at ∅ [asc "Hi there"] 0 (asc "Hi there") 0)))
      [Typed (asc "q")].
Proof.
  apply (skip_at_last_sentence_keeps_prompting 1 L1
           (prompt_at ∅ [asc "Hi there"] 0 (asc "Hi there") 0)
           (asc "Hi") (asc "s") [Typed (asc "q")]).
  - vm_compute. reflexivity.
  - vm_compute. reflexivity.
  - vm_compute. reflexivity.
  - intros e He. vm_compute in He. discriminate He.
  - vm_compute. reflexivity.
Defined.

Lemma next_then_previous_returns_witness :
  ∃ s1 s2,
    review_step L1
      (prompt_at ∅ [asc "Hi there"; asc "Bye"] 0 (asc "Hi there") 1)
      [Typed (asc "n"); Typed (asc "p")]
      = Continue s1 [Typed (asc "p")] ∧
    review_step L1 s1 [Typed (asc "p")] = Continue s2 [] ∧
    sentences s2 =
      sentences (prompt_at ∅ [asc "Hi there"; asc "Bye"] 0 (asc "Hi there") 1) ∧
    current_sentence_index s2 =
      current_sentence_index
        (prompt_at ∅ [asc "Hi there"; asc "Bye"] 0 (asc "Hi there") 1) ∧
    sentence s2 =
      sentence (prompt_at ∅ [asc "Hi there"; asc "Bye"] 0 (asc "Hi there") 1) ∧
    words s2 =
      words (prompt_at ∅ [asc "Hi there"; asc "Bye"] 0 (asc "Hi there") 1) ∧
    selected_word_index s2 =
      selected_word_index
        (prompt_at ∅ [asc "Hi there"; asc "Bye"] 0 (asc "Hi there") 1).
Proof.
  apply (next_then_previous_returns L1
           (prompt_at ∅ [asc "Hi there"; asc "Bye"] 0 (asc "Hi there") 1)
           (asc "n") (asc "p") []).
  - split; [vm_compute; reflexivity | intros _; vm_compute; reflexivity].
  - vm_compute. discriminate.
  - split; [vm_compute; discriminate | vm_compute; reflexivity].
  - intros x e He. vm_compute in He. discriminate He.
  - right. exists (asc "Bye"). split; [vm_compute; reflexivity|].
    intros H. vm_compute in H. discriminate H.
  - left. vm_compute. reflexivity.
  - vm_compute. reflexivity.
Defined.

(** ** The pipeline and the dictionary *)

Section PipelineFacts.
Context {U : UnicodeData}.

Lemma py_index_raises {A} (l : list A) (i : Z) (e : exn) :
  py_index l i = Raise e → e = IndexError.
Proof.
  unfold py_index. destruct (_ && _); [|by intros [= <-]].
  destruct (l !! _); [done | by intros [= <-]].
Qed.

Lemma for_each_raises {A B} (f : A → result B) (l : list A) (x : A) (e : exn) :
  x ∈ l → f x = Raise e →
  ∃ y e', y ∈ l ∧ f y = Raise e' ∧ for_each f l = Raise e'.
Proof.
  intros Hx Hf. induction l as [|a l IH]; [by apply elem_of_nil in Hx|].
  cbn [for_each]. destruct (f a) as [b|e'] eqn:Ha.
  - apply elem_of_cons in Hx as [->|Hx]; [congruence|].
    destruct (IH Hx) as (y & e' & Hy & Hfy & ->).
    exists y, e'. split; [by right | by split].
  - exists a, e'. split; [by left | by split].
Qed.

(** The only exception [transform_word] raises is [IndexError]. *)
Lemma transform_word_raises (d : Dictionary) (variation word : str) (e : exn) :
  transform_word d variation word = Raise e → e = IndexError.
Proof.
  unfold transform_word.
  destruct (py_index word (-1)) as [c|e1] eqn:Hc;
    [|intros [= <-]; exact (py_index_raises _ _ _ Hc)].
  rewrite result_bind_ok.
  set (rewritten := match d !! _ with Some _ => _ | None => _ end).
  assert (Hr : rewritten = Raise e → e = IndexError).
  { subst rewritten. destruct (d !! _) as [en|]; [|done].
    destruct (PI en !! variation) as [[r|]|]; [|done..].
    destruct (py_index _ 0) as [b|e1] eqn:Hb;
      [done | intros [= <-]; exact (py_index_raises _ _ _ Hb)]. }
  destruct (c =? 115); [|by rewrite result_bind_ok].
  destruct (len word <? 2)%Z; [by rewrite result_bind_ok|].
  destruct (py_index word (-2)) as [c2|e1] eqn:Hc2;
    [|intros [= <-]; exact (py_index_raises _ _ _ Hc2)].
  rewrite !result_bind_ok. destruct (negb _); [exact Hr | done].
Qed.

(** With a value under the empty key, the token [s] has the empty string
    for base word, and [base_word[0]] raises. *)
Lemma transform_word_empty_base (d : Dictionary) (variation r : str) (e : Entry) :
  d !! [] = Some e → PI e !! variation = Some (Some r) →
  transform_word d variation (asc "s") = Raise IndexError.
Proof.
  intros Hd He. unfold transform_word.
  change (asc "s") with ([] ++ [115]).
  rewrite py_index_last, result_bind_ok. cbn [app].
  change (115 =? 115) with true. cbv iota.
  replace (len [115%N] <? 2)%Z with true by reflexivity.
  rewrite result_bind_ok.
  change (take (length [115%N] - 1) [115%N]) with (@nil N).
  change (lower []) with (@nil N). by rewrite Hd, He.
Qed.

(** X17.  [transform_words_with_s_suffix] returns on every text when the
    dictionary has no entry under the empty key.  With an entry under the
    empty key that has a string for the variation, every text with a
    token [s] (as in [it's]) raises [IndexError]. *)
Theorem transform_words_raises_on_empty_key (d : Dictionary)
    (variation text : str) :
  (d !! [] = None →
   ∃ out, transform_words_with_s_suffix text d variation = Ok out) ∧
  (∀ e r, d !! [] = Some e → PI e !! variation = Some (Some r) →
     uc_isspace 115 = false → asc "s" ∈ findall_tokens text →
     transform_words_with_s_suffix text d variation = Raise IndexError).
Proof.
  split; [apply transform_words_total|].
  intros e r Hd He Hsp Hs. unfold transform_words_with_s_suffix.
  destruct (for_each_raises
              (λ token, if bool_decide (strip token ≠ [])
                        then transform_word d variation token
                        else Ok token)
              (findall_tokens text) (asc "s") IndexError Hs)
    as (y & e' & _ & Hy & ->).
  - rewrite bool_decide_eq_true_2; [by apply (transform_word_empty_base d variation r e)|].
    change (asc "s") with [115]. unfold strip. cbn [lstrip rev app].
    rewrite Hsp. cbn [lstrip rev app]. by rewrite Hsp.
  - cbn beta in Hy. destruct (bool_decide _); [|done].
    by rewrite (transform_word_raises _ _ _ _ Hy).
Qed.

(** X18.  When no entry of the dictionary has a string for the variation,
    [transcribe] does what [perform_preliminar_replacements] does and
    nothing more. *)
Theorem transcribe_without_forms (d : Dictionary) (variation text : str) :
  (∀ key, has_form d variation key = false) →
  transcribe d text variation = perform_preliminar_replacements text.
Proof.
  intros Hd. unfold transcribe.
  destruct (perform_preliminar_replacements text) as [t|e]; [|reflexivity].
  rewrite result_bind_ok.
  assert (Hnone : ∀ key, replacement_dict d variation !! key = None).
  { intros key. destruct (replacement_dict d variation !! key) as [r|] eqn:Hr;
      [|reflexivity].
    apply replacement_dict_lookup in Hr as (e & He & Hpi & _).
    specialize (Hd key). unfold has_form in Hd. by rewrite He, Hpi in Hd. }
  assert (Hupdate : update_words_for_piss_variation t d variation = Ok t).
  { unfold update_words_for_piss_variation. rewrite for_each_id.
    - by rewrite result_bind_ok, findall_tokens_concat.
    - apply Forall_forall. intros tok _. destruct (bool_decide _); [|reflexivity].
      unfold replace_word. by rewrite Hnone. }
  rewrite Hupdate, result_bind_ok.
  unfold transform_words_with_s_suffix. rewrite for_each_id.
  - by rewrite result_bind_ok, findall_tokens_concat.
  - eapply Forall_impl; [apply findall_tokens_nonempty|].
    intros tok Htok. cbn beta. destruct (bool_decide _); [|reflexivity].
    apply transform_word_stable; [exact Htok|].
    by destruct (stem_of tok).
Qed.

End PipelineFacts.

Lemma transform_words_raises_on_empty_key_witness :
  (∃ out, transform_words_with_s_suffix (asc "it's")
            (one_entry "it" "yt") L1 = Ok out) ∧
  transform_words_with_s_suffix (asc "it's")
    (entry_with "" {[ L1 := Some (asc "x") ]}) L1 = Raise IndexError.
Proof.
  split.
  - apply (proj1 (transform_words_raises_on_empty_key
                    (one_entry "it" "yt") L1 (asc "it's"))).
    vm_compute. reflexivity.
  - apply (proj2 (transform_words_raises_on_empty_key
                    (entry_with "" {[ L1 := Some (asc "x") ]}) L1 (asc "it's"))
             {| whole := asc ""; PI := {[ L1 := Some (asc "x") ]} |} (asc "x")).
    + vm_compute. reflexivity.
    + vm_compute. reflexivity.
    + vm_compute. reflexivity.
    + apply (list_elem_of_lookup_2 _ 2). vm_compute. reflexivity.
Defined.

Lemma transcribe_without_forms_witness :
  transcribe (entry_with "cat" {[ L1 := None ]}) (asc "the cats") L1 =
  perform_preliminar_replacements (asc "the cats").
Proof.
  apply (transcribe_without_forms
           (entry_with "cat" {[ L1 := None ]}) L1 (asc "the cats")).
  intros key. unfold has_form, entry_with.
  destruct (decide (asc "cat" = key)) as [<-|Hne].
  - rewrite lookup_singleton_eq. vm_compute. reflexivity.
  - by rewrite lookup_singleton_ne.
Defined.
